(** * IMA-ADPCM to PCM streaming decoder of [server2.js]

    A shallow embedding of the two classes of [src/server2.js] that carry
    the algorithm: [ADPCMDecoder] (the sample decoder) and
    [ADPCMToPCMTransform] (the streaming WAV container transform), followed
    by the properties the specification states about them; then the upload
    and listing routes of [server2.js], [server.js] and [server3.js] and
    further properties of the decoder, the transform and the routes.

    Conventions.
    - JavaScript numbers that the decoder manipulates are integers of small
      magnitude (no arithmetic here leaves the exactly representable range),
      so they are modelled as [Z].
    - A Node [Buffer] is a [list byte]; an [Int16Array] is a [list Z] whose
      elements went through the 16-bit wrap-around of a typed-array store.
    - A stream [push] is recorded in an event list, in order. *)

From Stdlib Require Import ZArith Lia Bool.
From Stdlib Require Import Strings.Byte Strings.String Strings.Ascii.
From Stdlib Require Import NArith DecimalString.
From stdpp Require Import base list sorting.

Local Open Scope Z_scope.

(** ** Lookup tables *)

(** [stepTable] (an [Int16Array] of 89 entries). *)
Definition stepTable : list Z :=
  [ 7; 8; 9; 10; 11; 12; 13; 14;
    16; 17; 19; 21; 23; 25; 28; 31;
    34; 37; 41; 45; 50; 55; 60; 66;
    73; 80; 88; 97; 107; 118; 130; 143;
    157; 173; 190; 209; 230; 253; 279; 307;
    337; 371; 408; 449; 494; 544; 598; 658;
    724; 796; 876; 963; 1060; 1166; 1282; 1411;
    1552; 1707; 1878; 2066; 2272; 2499; 2749; 3024;
    3327; 3660; 4026; 4428; 4871; 5358; 5894; 6484;
    7132; 7845; 8630; 9493; 10442; 11487; 12635; 13899;
    15289; 16818; 18500; 20350; 22385; 24623; 27086; 29794;
    32767 ].

(** [indexTable] (an [Int8Array] of 16 entries). *)
Definition indexTable : list Z :=
  [ -1; -1; -1; -1; 2; 4; 6; 8;
    -1; -1; -1; -1; 2; 4; 6; 8 ].

(** Reading a typed array at a JavaScript number.  Inside the bounds the
    element is returned.  Outside them JavaScript yields [undefined]; the
    decoder never reads there (the step index is clamped to 0..88 and the
    callers mask codes to 4 bits, see [decodeSample_stepIndex_range] and
    [nibble_range]), and the model returns 0 for such a read.  Every
    statement below is about reads inside the bounds. *)
Definition typed_get (table : list Z) (i : Z) : Z :=
  if (0 <=? i) then default 0 (table !! Z.to_nat i) else 0.

(** ** The sample decoder: class [ADPCMDecoder] *)

Record ADPCMDecoder := mkDecoder {
  predictor : Z;
  stepIndex : Z
}.

(** [constructor()] *)
Definition newDecoder : ADPCMDecoder :=
  {| predictor := 0; stepIndex := 0 |}.

(** Truthiness of [code & mask]. *)
Definition bit_set (code mask : Z) : bool :=
  negb (Z.land code mask =? 0).

(** The local variable [difference] of [decodeSample], after the three
    conditional additions. *)
Definition difference (step code : Z) : Z :=
  let d0 := Z.shiftr step 3 in
  let d1 := if bit_set code 4 then d0 + step else d0 in
  let d2 := if bit_set code 2 then d1 + Z.shiftr step 1 else d1 in
  let d3 := if bit_set code 1 then d2 + Z.shiftr step 2 else d2 in
  d3.

(** [Math.min(hi, Math.max(lo, x))] *)
Definition clamp (lo hi x : Z) : Z := Z.min hi (Z.max lo x).

(** [decodeSample(code)]: the returned sample and the decoder after the
    call. *)
Definition decodeSample (d : ADPCMDecoder) (code : Z) : Z * ADPCMDecoder :=
  let step := typed_get stepTable (stepIndex d) in
  let diff := difference step code in
  let p := if bit_set code 8 then predictor d - diff else predictor d + diff in
  let p := clamp (-32768) 32767 p in
  let si := stepIndex d + typed_get indexTable code in
  let si := clamp 0 88 si in
  (p, {| predictor := p; stepIndex := si |}).

(** Store of a number into an [Int16Array] element: reduction modulo 2^16
    into the signed range. *)
Definition to_int16 (x : Z) : Z := (x + 32768) mod 65536 - 32768.

(** The two codes taken from one input byte: [(byte >> 4) & 0x0F] and
    [byte & 0x0F]. *)
Definition byte_val (b : byte) : Z := Z.of_N (Byte.to_N b).
Definition high_nibble (b : byte) : Z := Z.land (Z.shiftr (byte_val b) 4) 15.
Definition low_nibble (b : byte) : Z := Z.land (byte_val b) 15.

(** [decode(adpcmData)]: the loop over the input bytes, threading the
    decoder; the result is the content of [pcmData] (two elements written
    per iteration, in order) and the decoder after the call. *)
Fixpoint decode (d : ADPCMDecoder) (adpcmData : list byte)
  : list Z * ADPCMDecoder :=
  match adpcmData with
  | [] => ([], d)
  | b :: rest =>
      let '(s1, d1) := decodeSample d (high_nibble b) in
      let '(s2, d2) := decodeSample d1 (low_nibble b) in
      let '(samples, d') := decode d2 rest in
      (to_int16 s1 :: to_int16 s2 :: samples, d')
  end.

(** The decoder after a sequence of [decodeSample] calls. *)
Definition decodeSamples (d : ADPCMDecoder) (codes : list Z) : ADPCMDecoder :=
  foldl (fun d c => (decodeSample d c).2) d codes.

(** ** Buffers *)

(** A Node [Buffer]. *)
Abbreviation Buffer := (list byte) (only parsing).

(** The byte holding the low 8 bits of an integer. *)
Definition byte_of_Z (z : Z) : byte :=
  default x00 (Byte.of_N (Z.to_N (z mod 256))).

(** Little-endian two's complement encoding on [n] bytes. *)
Fixpoint int_le (n : nat) (v : Z) : Buffer :=
  match n with
  | O => []
  | S n' => byte_of_Z v :: int_le n' (v / 256)
  end.

(** [Buffer.alloc(n)]: [n] zero bytes. *)
Definition Buffer_alloc (n : nat) : Buffer := replicate n x00.

(** [source.copy(target, targetStart, sourceStart, sourceEnd)]: the bytes
    of [source] from [sourceStart] up to [sourceEnd] (or to its end when it
    is shorter) overwrite [target] from [targetStart]; the target keeps its
    length. *)
Definition Buffer_copy (source target : Buffer)
    (targetStart sourceStart sourceEnd : nat) : Buffer :=
  list_inserts targetStart
    (take (sourceEnd - sourceStart) (drop sourceStart source)) target.

(** [buf.write(string, offset)] for an ASCII string. *)
Definition Buffer_write (s : string) (offset : nat) (buf : Buffer) : Buffer :=
  list_inserts offset (list_byte_of_string s) buf.

(** [buf.writeInt32LE(value, offset)] and [buf.writeInt16LE(value, offset)],
    at offsets inside the buffer. *)
Definition writeInt32LE (value : Z) (offset : nat) (buf : Buffer) : Buffer :=
  list_inserts offset (int_le 4 value) buf.
Definition writeInt16LE (value : Z) (offset : nat) (buf : Buffer) : Buffer :=
  list_inserts offset (int_le 2 value) buf.

(** [Buffer.from(pcmData.buffer)]: the bytes backing an [Int16Array], two
    per element, low byte first (typed arrays use the byte order of the
    platform, little-endian on the platforms Node runs on). *)
Definition Buffer_from_int16 (pcmData : list Z) : Buffer :=
  flat_map (int_le 2) pcmData.

(** ** The streaming transform: class [ADPCMToPCMTransform] *)

Record ADPCMToPCMTransform := mkTransform {
  decoder : ADPCMDecoder;
  headerWritten : bool;
  dataSize : Z
}.

(** [constructor(options)] *)
Definition newTransform : ADPCMToPCMTransform :=
  {| decoder := newDecoder; headerWritten := false; dataSize := 0 |}.

(** A call of [this.push], labelled by its place in [_transform]: the
    header push of the first branch, or one of the two pushes of decoded
    samples. *)
Inductive Push :=
| PushHeader (b : Buffer)
| PushPCM (b : Buffer).

Definition push_bytes (p : Push) : Buffer :=
  match p with PushHeader b => b | PushPCM b => b end.

Definition is_header_push (p : Push) : bool :=
  match p with PushHeader _ => true | PushPCM _ => false end.

(** What one call of [_transform] does: the pushes in order, the argument
    handed to [callback] ([None] for the plain [callback()]) and the
    transform after the call. *)
Record TransformResult := mkResult {
  pushes : list Push;
  callback_error : option string;
  after : ADPCMToPCMTransform
}.

(** The header modifications of the first branch, in program order. *)
Definition rewriteHeader (header : Buffer) : Buffer :=
  let header := Buffer_write "RIFF" 0 header in
  let header := Buffer_write "WAVE" 8 header in
  let header := Buffer_write "fmt " 12 header in
  let header := writeInt32LE 16 16 header in
  let header := writeInt16LE 1 20 header in
  let header := writeInt16LE 1 22 header in
  let header := writeInt32LE 16000 24 header in
  let header := writeInt32LE 32000 28 header in
  let header := writeInt16LE 2 32 header in
  let header := writeInt16LE 16 34 header in
  let header := Buffer_write "data" 36 header in
  header.

(** The header pushed for a first chunk. *)
Definition makeHeader (chunk : Buffer) : Buffer :=
  rewriteHeader (Buffer_copy chunk (Buffer_alloc 44) 0 0 44).

(** [_transform(chunk, encoding, callback)] *)
Definition _transform (t : ADPCMToPCMTransform) (chunk : Buffer)
  : TransformResult :=
  if negb (headerWritten t) then
    let header := makeHeader chunk in
    if (44 <? length chunk)%nat then
      let data := drop 44 chunk in
      let '(pcmData, d') := decode (decoder t) data in
      {| pushes := [PushHeader header; PushPCM (Buffer_from_int16 pcmData)];
         callback_error := None;
         after := {| decoder := d'; headerWritten := true;
                     dataSize := dataSize t |} |}
    else
      {| pushes := [PushHeader header];
         callback_error := None;
         after := {| decoder := decoder t; headerWritten := true;
                     dataSize := dataSize t |} |}
  else
    let '(pcmData, d') := decode (decoder t) chunk in
    {| pushes := [PushPCM (Buffer_from_int16 pcmData)];
       callback_error := None;
       after := {| decoder := d'; headerWritten := headerWritten t;
                   dataSize := dataSize t |} |}.

(** The stream feeding chunks to one transform, one [_transform] call per
    chunk in arrival order; a call that hands an error to its callback
    ends the stream.  The result is the trace of the calls. *)
Fixpoint run (t : ADPCMToPCMTransform) (chunks : list Buffer)
  : list TransformResult :=
  match chunks with
  | [] => []
  | chunk :: rest =>
      let r := _transform t chunk in
      r :: match callback_error r with
           | Some _ => []
           | None => run (after r) rest
           end
  end.

(** All pushes of a trace, in order, and the bytes the sink receives. *)
Definition all_pushes (trace : list TransformResult) : list Push :=
  flat_map pushes trace.

Definition output (trace : list TransformResult) : Buffer :=
  flat_map push_bytes (all_pushes trace).

(** The value of [headerWritten] after each call of a trace. *)
Definition flag_trace (trace : list TransformResult) : list bool :=
  map (fun r => headerWritten (after r)) trace.

(** Reading a little-endian unsigned integer from bytes. *)
Definition le_decode (bs : Buffer) : Z :=
  foldr (fun b acc => byte_val b + 256 * acc) 0 bs.

(** The bytes of a buffer from [off], [n] of them. *)
Definition slice (off n : nat) (b : Buffer) : Buffer := take n (drop off b).

(** ** The per-code algorithm as the specification words it

    Step 1 looks the step up, step 2 builds the magnitude from bits 2, 1
    and 0 of the code, step 3 subtracts or adds it by bit 3, step 4 clamps
    the predictor, step 5 updates and clamps the step index, step 6
    returns the clamped predictor. *)
Module Spec.

Definition clamp_to (lo hi x : Z) : Z :=
  if x <? lo then lo else if hi <? x then hi else x.

Definition magnitude (step code : Z) : Z :=
  Z.shiftr step 3
  + (if Z.testbit code 2 then step else 0)
  + (if Z.testbit code 1 then Z.shiftr step 1 else 0)
  + (if Z.testbit code 0 then Z.shiftr step 2 else 0).

Definition decode_sample (pred step_index code : Z) : Z * (Z * Z) :=
  let step := nth (Z.to_nat step_index) stepTable 0 in
  let diff := magnitude step code in
  let pred' := if Z.testbit code 3 then pred - diff else pred + diff in
  let pred' := clamp_to (-32768) 32767 pred' in
  let index' := step_index + nth (Z.to_nat code) indexTable 0 in
  let index' := clamp_to 0 88 index' in
  (pred', (pred', index')).

End Spec.

(** A 4-bit code. *)
Definition code4 (c : Z) : Prop := 0 <= c < 16.

(** The decoder invariant: a signed 16-bit predictor and a step index
    inside the step table. *)
Definition decoder_ok (d : ADPCMDecoder) : Prop :=
  -32768 <= predictor d <= 32767 /\ 0 <= stepIndex d <= 88.

(** ** Reading the emitted samples back, and the file reader

    [read_int16_le] is what a WAV reader does with the bytes after the
    header: every two bytes are one signed 16-bit sample, low byte first
    (a trailing odd byte is no sample).  It is the inverse against which
    the emitted bytes are checked. *)
Fixpoint read_int16_le (bs : Buffer) : list Z :=
  match bs with
  | lo :: hi :: rest => to_int16 (le_decode [lo; hi]) :: read_int16_le rest
  | _ => []
  end.

(** The codes [decode] hands to [decodeSample], in call order. *)
Definition nibbles (adpcmData : Buffer) : list Z :=
  flat_map (fun b => [high_nibble b; low_nibble b]) adpcmData.

(** [fs.createReadStream(inputPath)] on a file with the given content: the
    content arrives in chunks of [highWaterMark] bytes (64 KiB unless
    configured), the last one possibly shorter; an empty file delivers no
    chunk.  The fuel is the content length, enough for any positive
    [highWaterMark]. *)
Fixpoint read_chunks (fuel highWaterMark : nat) (content : Buffer)
  : list Buffer :=
  match fuel with
  | O => []
  | S fuel' =>
      match content with
      | [] => []
      | _ :: _ =>
          take highWaterMark content ::
          read_chunks fuel' highWaterMark (drop highWaterMark content)
      end
  end.

Definition createReadStream (highWaterMark : nat) (content : Buffer)
  : list Buffer :=
  read_chunks (length content) highWaterMark content.

(** [readStream.pipe(transform).pipe(writeStream)] of the upload route:
    the bytes that end up in the output file. *)
Definition convert (highWaterMark : nat) (content : Buffer) : Buffer :=
  output (run newTransform (createReadStream highWaterMark content)).

(** ** File names, the upload directory and the routes

    The route handlers of [server2.js] (upload with conversion, listing of
    recordings with their converted counterparts) and of [server.js] and
    [server3.js] (plain listings, the ten latest recordings).  JavaScript
    strings are modelled as [string]; the patterns searched for are ASCII,
    so positions of matches are the same in either representation.  The
    upload directory is a list of entries in [fs.readdir] order, each a
    name with the [fs.Stats] fields the handlers read, when the name can
    be stat'ed. *)
Module Routes.

Local Open Scope string_scope.

(** The string without its first [n] characters ([s.slice(n)]). *)
Fixpoint string_drop (n : nat) (s : string) : string :=
  match n, s with
  | S n', String _ s' => string_drop n' s'
  | _, _ => s
  end.

(** [s.endsWith(suffix)] *)
Definition endsWith (s suffix : string) : bool :=
  (String.length suffix <=? String.length s)%nat &&
  String.eqb (string_drop (String.length s - String.length suffix) s) suffix.

(** [s.replace(pattern, replacement)] for a string pattern and a
    replacement without [$]: only the first occurrence is replaced, and a
    string without occurrence is returned as it is. *)
Fixpoint replace (s pattern replacement : string) {struct s} : string :=
  if String.prefix pattern s
  then replacement ++ string_drop (String.length pattern) s
  else match s with
       | EmptyString => EmptyString
       | String c s' => String c (replace s' pattern replacement)
       end.

(** Whether a character occurs in a string. *)
Fixpoint has_char (c : Ascii.ascii) (s : string) : bool :=
  match s with
  | EmptyString => false
  | String a s' => Ascii.eqb a c || has_char c s'
  end.

(** [path.basename(p)] for a path that does not end in a slash: what
    follows the last slash, or the whole path when it has none. *)
Fixpoint basename (p : string) : string :=
  match p with
  | EmptyString => EmptyString
  | String c p' =>
      if has_char "/" p' then basename p'
      else if Ascii.eqb c "/" then p' else p
  end.

(** The decimal digits of a non-negative integer, as string concatenation
    prints [Date.now()]. *)
Definition decimal (n : N) : string := NilEmpty.string_of_uint (N.to_uint n).

(** [filename] of the disk storage: ['recording_' + Date.now() + '.wav']. *)
Definition storage_filename (now : N) : string :=
  "recording_" ++ decimal now ++ ".wav".

(** [req.file] as multer's disk storage fills it: the name chosen by
    [filename] and the path of that name inside the destination
    ['uploads/']. *)
Record MulterFile := mkFile {
  filename : string;
  path : string
}.

Definition diskStorage (now : N) : MulterFile :=
  {| filename := storage_filename now;
     path := "uploads/" ++ storage_filename now |}.

(** A response: [res.status(code).send(body)] or [res.json(body)]. *)
Inductive Response (A : Type) :=
| Send (code : Z) (body : string)
| Json (body : A).
Arguments Send {A} code body.
Arguments Json {A} body.

(** The body of the upload route's success response. *)
Record Converted := mkConverted {
  message : string;
  originalFile : string;
  pcmFile : string
}.

(** The upload route of [server2.js].  [file] is [req.file] (absent when
    the request carried no file), [content] the bytes of the stored
    upload, [highWaterMark] the chunk size of the read stream, and
    [writeError] tells whether the write stream emitted ['error'].  The
    result is the response and, when the conversion finished, the file it
    wrote: its path and its bytes. *)
Definition upload (file : option MulterFile) (content : Buffer)
    (highWaterMark : nat) (writeError : bool)
  : Response Converted * option (string * Buffer) :=
  match file with
  | None => (Send 400 "No file uploaded.", None)
  | Some f =>
      let inputPath := path f in
      let outputPath := replace inputPath ".wav" "_pcm.wav" in
      if writeError then (Send 500 "Error converting file", None)
      else
        (Json {| message := "File uploaded and converted successfully";
                 originalFile := filename f;
                 pcmFile := basename outputPath |},
         Some (outputPath, convert highWaterMark content))
  end.

(** The [fs.Stats] fields read by the handlers (times in milliseconds). *)
Record Stats := mkStats {
  size : Z;
  mtime : Z;
  birthtime : Z
}.

(** The upload directory: the names [fs.readdir] lists, in its order,
    each with what [fs.statSync] finds under that name; [None] marks a
    listed name that cannot be stat'ed (a link whose target is gone, a
    file removed since the listing). *)
Abbreviation Dir := (list (string * option Stats)) (only parsing).

(** [fs.statSync(path.join(dir, file))]: the stats found under that
    name; [None] stands for the exception thrown when the name is not in
    the directory or cannot be stat'ed. *)
Fixpoint statSync (d : Dir) (file : string) : option Stats :=
  match d with
  | [] => None
  | (n, st) :: d' => if String.eqb n file then st else statSync d' file
  end.

(** [fs.existsSync(path.join(dir, file))]: false as well for a name that
    cannot be stat'ed. *)
Definition existsSync (d : Dir) (file : string) : bool :=
  match statSync d file with Some _ => true | None => false end.

(** The [.wav] names of a directory: [files.filter(file =>
    file.endsWith('.wav'))]. *)
Definition wav_files (d : Dir) : list string :=
  List.filter (fun file => endsWith file ".wav") (map fst d).

(** One element of the listing of [server2.js]. *)
Record Recording := mkRecording {
  name : string;
  pcmName : string;
  originalSize : Z;
  pcmSize : Z;
  timestamp : Z
}.

(** The [map] callback of the listing of [server2.js]; [None] when a
    [statSync] throws. *)
Definition recording_of (d : Dir) (file : string) : option Recording :=
  stats ← statSync d file;
  let pcmFile := replace file ".wav" "_pcm.wav" in
  if existsSync d pcmFile then
    pcmStats ← statSync d pcmFile;
    Some {| name := file; pcmName := pcmFile; originalSize := size stats;
            pcmSize := size pcmStats; timestamp := mtime stats |}
  else
    Some {| name := file; pcmName := pcmFile; originalSize := size stats;
            pcmSize := 0; timestamp := mtime stats |}.

(** The route [/recordings] of [server2.js]: [dir] is what [fs.readdir]
    finds, [None] when it reports an error; the outer [None] stands for
    an exception thrown inside the callback. *)
Definition recordings (dir : option Dir)
  : option (Response (list Recording)) :=
  match dir with
  | None => Some (Send 500 "Error reading directory")
  | Some d => Json <$> mapM (recording_of d) (wav_files d)
  end.

(** One element of the listings of [server3.js] and of [/latest]. *)
Record Latest := mkLatest {
  file : string;
  bytes : Z;
  created : Z
}.

Definition latest_of (d : Dir) (f : string) : option Latest :=
  stats ← statSync d f;
  Some {| file := f; bytes := size stats; created := birthtime stats |}.

(** [array.sort((a, b) => b.created - a.created)]: the sort is stable
    and the comparator orders by [created], latest first, so the result is
    the stable descending arrangement; it is computed by insertion, each
    element going before the later-placed elements that are not newer. *)
Fixpoint insert_latest (x : Latest) (l : list Latest) : list Latest :=
  match l with
  | [] => [x]
  | y :: l' =>
      if (created x <? created y)%Z then y :: insert_latest x l' else x :: l
  end.

Definition sort_latest (l : list Latest) : list Latest :=
  foldr insert_latest [] l.

(** The route [/latest] of [server.js]: the ten latest [.wav] files. *)
Definition latest (dir : option Dir) : option (Response (list Latest)) :=
  match dir with
  | None => Some (Send 500 "Error reading directory")
  | Some d =>
      recs ← mapM (latest_of d) (wav_files d);
      Some (Json (take 10 (sort_latest recs)))
  end.

End Routes.

(** * Properties of the sample decoder *)

Section Decoder.

Lemma clamp_range lo hi x : lo <= hi -> lo <= clamp lo hi x <= hi.
Proof. unfold clamp. lia. Qed.

Lemma clamp_spec lo hi x : lo <= hi -> clamp lo hi x = Spec.clamp_to lo hi x.
Proof.
  intros Hle. unfold clamp, Spec.clamp_to.
  destruct (Z.ltb_spec x lo), (Z.ltb_spec hi x); lia.
Qed.

Lemma code4_cases (P : Z -> Prop) :
  P 0 -> P 1 -> P 2 -> P 3 -> P 4 -> P 5 -> P 6 -> P 7 ->
  P 8 -> P 9 -> P 10 -> P 11 -> P 12 -> P 13 -> P 14 -> P 15 ->
  forall c, code4 c -> P c.
Proof.
  intros H0 H1 H2 H3 H4 H5 H6 H7 H8 H9 H10 H11 H12 H13 H14 H15 c [Hlo Hhi].
  assert (Hc : c = 0 \/ c = 1 \/ c = 2 \/ c = 3 \/ c = 4 \/ c = 5 \/ c = 6
               \/ c = 7 \/ c = 8 \/ c = 9 \/ c = 10 \/ c = 11 \/ c = 12
               \/ c = 13 \/ c = 14 \/ c = 15) by lia.
  repeat (destruct Hc as [-> | Hc]; [assumption |]). by subst.
Qed.

(** The masks 8, 4, 2, 1 test bits 3, 2, 1, 0. *)
Lemma bit_set_testbit c :
  code4 c ->
  bit_set c 8 = Z.testbit c 3 /\ bit_set c 4 = Z.testbit c 2 /\
  bit_set c 2 = Z.testbit c 1 /\ bit_set c 1 = Z.testbit c 0.
Proof. revert c. apply code4_cases; by vm_compute. Qed.

Lemma difference_magnitude step c :
  code4 c -> difference step c = Spec.magnitude step c.
Proof.
  intros Hc. destruct (bit_set_testbit c Hc) as (_ & H4 & H2 & H1).
  unfold difference, Spec.magnitude. rewrite H4, H2, H1.
  destruct (Z.testbit c 2), (Z.testbit c 1), (Z.testbit c 0); lia.
Qed.

Lemma typed_get_nth table i :
  0 <= i -> typed_get table i = nth (Z.to_nat i) table 0.
Proof.
  intros Hi. unfold typed_get.
  destruct (Z.leb_spec 0 i); [| lia]. by rewrite nth_lookup.
Qed.

Lemma decodeSample_predictor_range d c :
  -32768 <= predictor (decodeSample d c).2 <= 32767.
Proof. cbn. apply clamp_range. lia. Qed.

Lemma decodeSample_stepIndex_range d c :
  0 <= stepIndex (decodeSample d c).2 <= 88.
Proof. cbn. apply clamp_range. lia. Qed.

Lemma decodeSample_ok d c : decoder_ok (decodeSample d c).2.
Proof.
  split; [apply decodeSample_predictor_range | apply decodeSample_stepIndex_range].
Qed.

Lemma decodeSample_returns_predictor d c :
  (decodeSample d c).1 = predictor (decodeSample d c).2.
Proof. reflexivity. Qed.

Lemma newDecoder_ok : decoder_ok newDecoder.
Proof. unfold decoder_ok. cbn. lia. Qed.

Lemma decodeSamples_snoc d codes c :
  decodeSamples d (codes ++ [c]) = (decodeSample (decodeSamples d codes) c).2.
Proof. unfold decodeSamples. by rewrite foldl_app. Qed.

Lemma decodeSamples_ok d codes :
  decoder_ok d -> decoder_ok (decodeSamples d codes).
Proof.
  intros Hd. induction codes as [| c codes IH] using rev_ind; [exact Hd |].
  rewrite decodeSamples_snoc. apply decodeSample_ok.
Qed.

Lemma nibble_range b : code4 (high_nibble b) /\ code4 (low_nibble b).
Proof. destruct b; vm_compute; intuition congruence. Qed.

(** The two masked expressions are the quotient and the remainder of the
    byte by 16. *)
Lemma nibble_div_mod b :
  high_nibble b = byte_val b / 16 /\ low_nibble b = byte_val b mod 16.
Proof. destruct b; by vm_compute. Qed.

End Decoder.

(** ** Claims about the sample decoder *)

(** C2. Decoder state invariant: starting from the initial decoder
    (predictor 0, step index 0), after every call of [decodeSample] in any
    sequence of calls with 4-bit codes, the predictor lies in
    [-32768, 32767] and the step index in [0, 88].  The state after the
    first [n] calls is the one reached on the prefix of length [n]. *)
Theorem decoder_state_invariant (codes : list Z) :
  Forall code4 codes ->
  forall n : nat,
    -32768 <= predictor (decodeSamples newDecoder (take n codes)) <= 32767 /\
    0 <= stepIndex (decodeSamples newDecoder (take n codes)) <= 88.
Proof.
  intros _ n. apply (decodeSamples_ok newDecoder (take n codes)), newDecoder_ok.
Qed.

Lemma decoder_state_invariant_witness :
  -32768 <= predictor (decodeSamples newDecoder (take 3 [7; 7; 15; 0])) <= 32767 /\
  0 <= stepIndex (decodeSamples newDecoder (take 3 [7; 7; 15; 0])) <= 88.
Proof.
  apply (decoder_state_invariant [7; 7; 15; 0]).
  repeat constructor; unfold code4; lia.
Defined.

(** C3. [decodeSample] implements the per-code algorithm of the
    specification: for every decoder whose step index is in [0, 88] and
    every 4-bit code, the returned sample and the decoder after the call
    are the ones [Spec.decode_sample] computes (magnitude from the step
    and bits 2, 1, 0; sign by bit 3; predictor clamped to 16 bits; step
    index moved by the index table and clamped to [0, 88]; the clamped
    predictor returned). *)
Theorem decodeSample_implements_spec (d : ADPCMDecoder) (c : Z) :
  0 <= stepIndex d <= 88 ->
  code4 c ->
  decodeSample d c =
    (let '(sample, (p, i)) := Spec.decode_sample (predictor d) (stepIndex d) c in
     (sample, {| predictor := p; stepIndex := i |})).
Proof.
  intros Hsi Hc. unfold decodeSample, Spec.decode_sample.
  destruct (bit_set_testbit c Hc) as (H8 & _).
  rewrite H8, (difference_magnitude _ c Hc).
  rewrite !typed_get_nth by (unfold code4 in Hc; lia).
  by rewrite !clamp_spec by lia.
Qed.

Lemma decodeSample_implements_spec_witness :
  decodeSample {| predictor := 100; stepIndex := 40 |} 13 =
    (let '(sample, (p, i)) := Spec.decode_sample 100 40 13 in
     (sample, {| predictor := p; stepIndex := i |})).
Proof.
  apply (decodeSample_implements_spec {| predictor := 100; stepIndex := 40 |} 13).
  - cbn. lia.
  - unfold code4. lia.
Defined.

(** C8, as the specification words it, fails on its last point: after
    code 0xF from the initial decoder the step index is 8, not 0. *)
Lemma scenario_0xF_stepIndex_not_0 :
  stepIndex (decodeSample newDecoder 15).2 = 8 /\
  stepIndex (decodeSample newDecoder 15).2 <> 0.
Proof. by vm_compute. Qed.

(** C8 (amended). From the initial decoder, code 0x0 returns 0 and leaves
    predictor 0 and step index 0 (0 + (-1) clamped back to 0); from the
    initial decoder, code 0xF reads step 7, computes the difference
    0 + 7 + 3 + 1 = 11, returns -11 as the new predictor, and the step
    index becomes 0 + 8 = 8. *)
Theorem scenario_initial_codes :
  decodeSample newDecoder 0 = (0, {| predictor := 0; stepIndex := 0 |}) /\
  typed_get indexTable 0 = -1 /\
  typed_get stepTable (stepIndex newDecoder) = 7 /\
  difference 7 15 = Z.shiftr 7 3 + 7 + Z.shiftr 7 1 + Z.shiftr 7 2 /\
  difference 7 15 = 0 + 7 + 3 + 1 /\
  typed_get indexTable 15 = 8 /\
  decodeSample newDecoder 15 = (-11, {| predictor := -11; stepIndex := 8 |}).
Proof. by vm_compute. Qed.

(** C10. Sign-bit independence of the step adaptation: in every decoder
    state reachable from the initial one by 4-bit codes, a 4-bit code [c]
    and [c | 8] lead to the same step index; the index table satisfies
    [indexTable[c] = indexTable[c & 7]]. *)
Theorem stepIndex_sign_independent (codes : list Z) (c : Z) :
  Forall code4 codes ->
  code4 c ->
  stepIndex (decodeSample (decodeSamples newDecoder codes) c).2 =
    stepIndex (decodeSample (decodeSamples newDecoder codes) (Z.lor c 8)).2 /\
  typed_get indexTable c = typed_get indexTable (Z.land c 7) /\
  typed_get indexTable (Z.lor c 8) = typed_get indexTable c.
Proof.
  intros _ Hc.
  assert (Ht : typed_get indexTable (Z.lor c 8) = typed_get indexTable c
               /\ typed_get indexTable c = typed_get indexTable (Z.land c 7)).
  { revert c Hc. apply code4_cases; by vm_compute. }
  destruct Ht as [Hor Hand]. split; [| by split].
  cbn. by rewrite Hor.
Qed.

Lemma stepIndex_sign_independent_witness :
  stepIndex (decodeSample (decodeSamples newDecoder [7; 6; 12]) 5).2 =
    stepIndex (decodeSample (decodeSamples newDecoder [7; 6; 12]) (Z.lor 5 8)).2 /\
  typed_get indexTable 5 = typed_get indexTable (Z.land 5 7) /\
  typed_get indexTable (Z.lor 5 8) = typed_get indexTable 5.
Proof.
  apply (stepIndex_sign_independent [7; 6; 12] 5).
  - repeat constructor; unfold code4; lia.
  - unfold code4. lia.
Defined.

(** * Properties of the block decoder and of the streaming transform *)

Section Transform.

Local Open Scope nat_scope.

Lemma to_int16_id x : (-32768 <= x <= 32767)%Z -> to_int16 x = x.
Proof.
  intros Hx. unfold to_int16. rewrite Z.mod_small by lia. lia.
Qed.

Lemma decodeSample_sample_range d c :
  (-32768 <= (decodeSample d c).1 <= 32767)%Z.
Proof. rewrite decodeSample_returns_predictor. apply decodeSample_predictor_range. Qed.

(** One iteration of the loop of [decode]. *)
Lemma decode_cons d b rest :
  let r1 := decodeSample d (high_nibble b) in
  let r2 := decodeSample r1.2 (low_nibble b) in
  decode d (b :: rest) =
    (r1.1 :: r2.1 :: (decode r2.2 rest).1, (decode r2.2 rest).2).
Proof.
  intros r1 r2. subst r1 r2. cbn [decode].
  pose proof (decodeSample_sample_range d (high_nibble b)) as H1.
  destruct (decodeSample d (high_nibble b)) as [s1 d1]. cbn [fst snd] in *.
  pose proof (decodeSample_sample_range d1 (low_nibble b)) as H2.
  destruct (decodeSample d1 (low_nibble b)) as [s2 d2]. cbn [fst snd] in *.
  destruct (decode d2 rest) as [ss d']. cbn [fst snd].
  by rewrite !to_int16_id.
Qed.

Lemma decode_app d a b :
  decode d (a ++ b) =
    ((decode d a).1 ++ (decode (decode d a).2 b).1,
     (decode (decode d a).2 b).2).
Proof.
  revert d. induction a as [| x a IH]; intros d.
  - cbn [app decode fst snd]. by destruct (decode d b).
  - rewrite <- app_comm_cons, !decode_cons. cbn zeta. cbn [fst snd].
    by rewrite IH.
Qed.

Lemma decode_length d bs : length (decode d bs).1 = 2 * length bs.
Proof.
  revert d. induction bs as [| b bs IH]; intros d; [reflexivity |].
  rewrite decode_cons. cbn zeta. cbn [fst length]. rewrite IH. lia.
Qed.

Lemma decode_samples_int16 d bs :
  Forall (fun s => (-32768 <= s <= 32767)%Z) (decode d bs).1.
Proof.
  revert d. induction bs as [| b bs IH]; intros d; [constructor |].
  rewrite decode_cons. cbn zeta. cbn [fst].
  repeat constructor; try apply decodeSample_sample_range. apply IH.
Qed.

Lemma Buffer_from_int16_app a b :
  Buffer_from_int16 (a ++ b) = Buffer_from_int16 a ++ Buffer_from_int16 b.
Proof. apply flat_map_app. Qed.

Lemma Buffer_from_int16_length l :
  length (Buffer_from_int16 l) = 2 * length l.
Proof.
  induction l as [| x l IH]; [reflexivity |].
  unfold Buffer_from_int16 in *. cbn [flat_map].
  rewrite length_app, IH. cbn [int_le length]. lia.
Qed.

(** The two branches of [_transform]. *)
Lemma transform_first t chunk :
  headerWritten t = false ->
  _transform t chunk =
    {| pushes :=
         PushHeader (makeHeader chunk) ::
         (if 44 <? length chunk
          then [PushPCM (Buffer_from_int16 (decode (decoder t) (drop 44 chunk)).1)]
          else []);
       callback_error := None;
       after := {| decoder := (decode (decoder t) (drop 44 chunk)).2;
                   headerWritten := true; dataSize := dataSize t |} |}.
Proof.
  intros Hw. unfold _transform. rewrite Hw. cbn [negb].
  destruct (Nat.ltb_spec 44 (length chunk)) as [Hlt | Hge].
  - by destruct (decode (decoder t) (drop 44 chunk)).
  - by rewrite drop_ge by lia.
Qed.

Lemma transform_streaming t chunk :
  headerWritten t = true ->
  _transform t chunk =
    {| pushes := [PushPCM (Buffer_from_int16 (decode (decoder t) chunk).1)];
       callback_error := None;
       after := {| decoder := (decode (decoder t) chunk).2;
                   headerWritten := true; dataSize := dataSize t |} |}.
Proof.
  intros Hw. unfold _transform. rewrite Hw. cbn [negb].
  by destruct (decode (decoder t) chunk).
Qed.

(** [_transform] always ends with the plain [callback()]. *)
Lemma transform_no_error t chunk : callback_error (_transform t chunk) = None.
Proof.
  destruct (headerWritten t) eqn:Hw.
  - by rewrite transform_streaming.
  - by rewrite transform_first.
Qed.

Lemma run_cons t chunk rest :
  run t (chunk :: rest) =
    _transform t chunk :: run (after (_transform t chunk)) rest.
Proof. cbn [run]. by rewrite transform_no_error. Qed.

Lemma run_length t chunks : length (run t chunks) = length chunks.
Proof.
  revert t. induction chunks as [| c cs IH]; intros t; [reflexivity |].
  rewrite run_cons. cbn [length]. by rewrite IH.
Qed.

(** A stream that ends without a chunk: [_transform] is never called and
    nothing is pushed, not even a header. *)
Lemma run_no_chunks t : run t [] = [] /\ output (run t []) = [].
Proof. by split. Qed.

Lemma run_no_error t chunks :
  Forall (fun r => callback_error r = None) (run t chunks).
Proof.
  revert t. induction chunks as [| c cs IH]; intros t; [constructor |].
  rewrite run_cons. constructor; [apply transform_no_error | apply IH].
Qed.

Lemma all_pushes_cons r trace :
  all_pushes (r :: trace) = pushes r ++ all_pushes trace.
Proof. reflexivity. Qed.

Lemma output_cons r trace :
  output (r :: trace) = flat_map push_bytes (pushes r) ++ output trace.
Proof. unfold output. by rewrite all_pushes_cons, flat_map_app. Qed.

(** Once the header is written, a run only decodes: it pushes one block
    of samples per chunk, keeps the flag set, and the bytes it emits are
    those of decoding the concatenation of the chunks. *)
Lemma run_streaming t chunks :
  headerWritten t = true ->
  all_pushes (run t chunks) =
    map PushPCM (map push_bytes (all_pushes (run t chunks))) /\
  flag_trace (run t chunks) = replicate (length chunks) true /\
  output (run t chunks) =
    Buffer_from_int16 (decode (decoder t) (concat chunks)).1.
Proof.
  revert t. induction chunks as [| c cs IH]; intros t Hw; [done |].
  rewrite run_cons, (transform_streaming _ _ Hw). cbn [after].
  set (t' := {| decoder := _ |}).
  destruct (IH t' eq_refl) as (Hp & Hf & Ho).
  rewrite all_pushes_cons, output_cons, Ho.
  cbn [pushes after map app concat length replicate flat_map push_bytes
       flag_trace headerWritten decoder t'].
  split; [by rewrite <- Hp |]. split; [by rewrite <- Hf |].
  rewrite decode_app. cbn [fst]. by rewrite Buffer_from_int16_app, app_nil_r.
Qed.

(** A run from a fresh transform on a stream that has a first chunk. *)
Lemma run_first_output c1 rest :
  output (run newTransform (c1 :: rest)) =
    makeHeader c1 ++
    Buffer_from_int16 (decode newDecoder (drop 44 c1 ++ concat rest)).1.
Proof.
  rewrite run_cons, (transform_first newTransform c1 eq_refl). cbn [after].
  set (t' := {| decoder := _ |}).
  destruct (run_streaming t' rest eq_refl) as (_ & _ & Ho).
  rewrite output_cons, Ho. cbn [pushes decoder t' newTransform].
  rewrite decode_app. cbn [fst]. rewrite Buffer_from_int16_app.
  destruct (Nat.ltb_spec 44 (length c1)) as [Hlt | Hge].
  - cbn [flat_map push_bytes app]. by rewrite app_nil_r, <- app_assoc.
  - rewrite drop_ge by lia. cbn [flat_map push_bytes app decode fst snd].
    by rewrite app_nil_r.
Qed.

Lemma Buffer_copy_full chunk :
  44 <= length chunk -> Buffer_copy chunk (Buffer_alloc 44) 0 0 44 = take 44 chunk.
Proof.
  intros Hlen. unfold Buffer_copy, Buffer_alloc.
  rewrite drop_0. change (44 - 0) with 44.
  pose proof (list_inserts_0_l (take 44 chunk) [] (replicate 44 x00)) as H.
  rewrite app_nil_r in H. apply H.
  rewrite length_take, length_replicate. lia.
Qed.

Lemma Buffer_copy_short chunk :
  length chunk < 44 ->
  Buffer_copy chunk (Buffer_alloc 44) 0 0 44 =
    chunk ++ replicate (44 - length chunk) x00.
Proof.
  intros Hlen. unfold Buffer_copy, Buffer_alloc.
  rewrite drop_0. change (44 - 0) with 44.
  rewrite take_ge by lia.
  replace 44 with (length chunk + (44 - length chunk)) at 1 by lia.
  rewrite replicate_add. apply list_inserts_0_r. by rewrite length_replicate.
Qed.

Lemma Buffer_copy_length chunk :
  length (Buffer_copy chunk (Buffer_alloc 44) 0 0 44) = 44.
Proof. unfold Buffer_copy, Buffer_alloc. by rewrite length_inserts, length_replicate. Qed.

End Transform.

Section Header.

Local Open Scope nat_scope.

(** The rewritten header field by field: every byte of a 44-byte buffer
    is either set to a constant by [rewriteHeader] or left as it was
    (offsets 4 to 7 and 40 to 43).  Stated on the buffer followed by any
    further bytes, as it sits at the front of the output. *)
Lemma rewriteHeader_fields (h tail : Buffer) :
  length h = 44 ->
  let out := rewriteHeader h ++ tail in
  slice 0 4 out = list_byte_of_string "RIFF" /\
  slice 4 4 out = slice 4 4 h /\
  slice 8 4 out = list_byte_of_string "WAVE" /\
  slice 12 4 out = list_byte_of_string "fmt " /\
  le_decode (slice 16 4 out) = 16%Z /\
  le_decode (slice 20 2 out) = 1%Z /\
  le_decode (slice 22 2 out) = 1%Z /\
  le_decode (slice 24 4 out) = 16000%Z /\
  le_decode (slice 28 4 out) = 32000%Z /\
  le_decode (slice 32 2 out) = 2%Z /\
  le_decode (slice 34 2 out) = 16%Z /\
  slice 36 4 out = list_byte_of_string "data" /\
  slice 40 4 out = slice 40 4 h.
Proof.
  intros Hlen.
  do 44 (destruct h as [| ? h]; [discriminate Hlen |]).
  destruct h; [| discriminate Hlen].
  cbv zeta. repeat split; reflexivity.
Qed.

Lemma rewriteHeader_length h : length (rewriteHeader h) = length h.
Proof.
  unfold rewriteHeader, Buffer_write, writeInt32LE, writeInt16LE.
  by rewrite !length_inserts.
Qed.

Lemma makeHeader_length chunk : length (makeHeader chunk) = 44.
Proof. unfold makeHeader. by rewrite rewriteHeader_length, Buffer_copy_length. Qed.

Lemma makeHeader_take chunk :
  44 <= length chunk -> makeHeader (take 44 chunk) = makeHeader chunk.
Proof.
  intros Hlen. unfold makeHeader.
  rewrite !Buffer_copy_full; [by rewrite take_take | lia |].
  rewrite length_take. lia.
Qed.

Lemma slice_take off n m (b : Buffer) :
  off + n <= m -> slice off n (take m b) = slice off n b.
Proof.
  intros Hle. unfold slice.
  rewrite skipn_firstn_comm, take_take. f_equal. lia.
Qed.

Lemma filter_header_PushPCM pcm :
  List.filter is_header_push (map PushPCM pcm) = [].
Proof. induction pcm as [| b pcm IH]; [reflexivity | exact IH]. Qed.

End Header.

(** ** Claims about the block decoder and the streaming transform *)

Section TransformClaims.

Local Open Scope nat_scope.

(** C1. Chunking invariance: for a byte stream cut into a first chunk of
    at least 44 bytes followed by any further chunks, a fresh transform
    fed the chunks one by one emits the same bytes as a fresh transform
    fed the whole stream as one chunk: the header built from the first 44
    bytes, followed by the samples decoded from all the bytes after
    offset 44. *)
Theorem chunking_invariance (c1 : Buffer) (rest : list Buffer) :
  44 <= length c1 ->
  output (run newTransform [c1 ++ concat rest]) =
    output (run newTransform (c1 :: rest)) /\
  output (run newTransform (c1 :: rest)) =
    makeHeader (take 44 (c1 ++ concat rest)) ++
    Buffer_from_int16
      (decode newDecoder (drop 44 (c1 ++ concat rest))).1.
Proof.
  intros Hlen.
  assert (Hsplit : output (run newTransform (c1 :: rest)) =
            makeHeader (take 44 (c1 ++ concat rest)) ++
            Buffer_from_int16
              (decode newDecoder (drop 44 (c1 ++ concat rest))).1).
  { rewrite run_first_output, take_app_le, drop_app_le by lia.
    by rewrite makeHeader_take. }
  split; [| exact Hsplit].
  rewrite Hsplit, run_first_output. cbn [concat]. rewrite app_nil_r.
  rewrite makeHeader_take; [reflexivity |]. rewrite length_app. lia.
Qed.

Lemma chunking_invariance_witness :
  output (run newTransform
            [(replicate 44 x11 ++ [x7f; x80]) ++ concat [[x3c]; []; [xf0; x0f]]]) =
    output (run newTransform
              ((replicate 44 x11 ++ [x7f; x80]) :: [[x3c]; []; [xf0; x0f]])) /\
  output (run newTransform
            ((replicate 44 x11 ++ [x7f; x80]) :: [[x3c]; []; [xf0; x0f]])) =
    makeHeader
      (take 44 ((replicate 44 x11 ++ [x7f; x80]) ++ concat [[x3c]; []; [xf0; x0f]])) ++
    Buffer_from_int16
      (decode newDecoder
         (drop 44 ((replicate 44 x11 ++ [x7f; x80]) ++
                   concat [[x3c]; []; [xf0; x0f]]))).1.
Proof.
  apply (chunking_invariance (replicate 44 x11 ++ [x7f; x80])
           [[x3c]; []; [xf0; x0f]]).
  vm_compute. lia.
Defined.

(** C4. [decode] turns every input byte into two 16-bit samples, first
    the one of the high nibble and then the one of the low nibble: for a
    decoder whose step index is inside the step table, the two codes of a
    byte are its quotient and its remainder by 16 (each in 0..15, together
    the whole byte), the first sample is [decodeSample] on the quotient,
    the second is [decodeSample] on the remainder in the state the first
    call leaves, and the rest of the block follows; so [N] bytes give
    [2 * N] samples, each a signed 16-bit value.  And the bytes a fresh
    transform emits after the 44-byte header number 4 times the payload
    bytes, the payload being what follows offset 44 of the first chunk
    and all later chunks. *)
Theorem decode_two_samples_per_byte
    (d : ADPCMDecoder) (b : byte) (bs : Buffer)
    (c1 : Buffer) (rest : list Buffer) :
  (0 <= stepIndex d <= 88)%Z ->
  (let hi := (byte_val b / 16)%Z in
   let lo := (byte_val b mod 16)%Z in
   let r1 := decodeSample d hi in
   let r2 := decodeSample r1.2 lo in
   (0 <= hi < 16)%Z /\ (0 <= lo < 16)%Z /\
   byte_val b = (16 * hi + lo)%Z /\
   decode d (b :: bs) =
     (r1.1 :: r2.1 :: (decode r2.2 bs).1, (decode r2.2 bs).2)) /\
  length (decode d bs).1 = 2 * length bs /\
  Forall (fun s => (-32768 <= s <= 32767)%Z) (decode d bs).1 /\
  (let out := output (run newTransform (c1 :: rest)) in
   take 44 out = makeHeader c1 /\
   length (makeHeader c1) = 44 /\
   length (drop 44 out) = 4 * (length (drop 44 c1) + length (concat rest)) /\
   length (drop 44 out) = 4 * (length c1 - 44 + length (concat rest))).
Proof.
  intros _.
  split; [| split; [apply decode_length |
                    split; [apply decode_samples_int16 |]]].
  - cbv zeta. destruct (nibble_div_mod b) as [Hhi Hlo].
    destruct (nibble_range b) as [Rhi Rlo]. unfold code4 in Rhi, Rlo.
    rewrite Hhi in Rhi. rewrite Hlo in Rlo.
    split; [exact Rhi |]. split; [exact Rlo |].
    split; [apply Z.div_mod; lia |].
    rewrite <- Hhi, <- Hlo. apply decode_cons.
  - intros out. subst out. rewrite run_first_output.
    pose proof (makeHeader_length c1) as Hh.
    rewrite take_app_length', drop_app_length' by (symmetry; exact Hh).
    rewrite Buffer_from_int16_length, decode_length, length_app, length_drop.
    repeat split; [exact Hh | lia | lia].
Qed.

Lemma decode_two_samples_per_byte_witness :
  let d := {| predictor := 5; stepIndex := 30 |} in
  let b := x4f in
  let bs := [x80; x17] in
  let c1 := replicate 44 x11 ++ [x7f] in
  let rest := [[x3c; xf0]] in
  (let hi := (byte_val b / 16)%Z in
   let lo := (byte_val b mod 16)%Z in
   let r1 := decodeSample d hi in
   let r2 := decodeSample r1.2 lo in
   (0 <= hi < 16)%Z /\ (0 <= lo < 16)%Z /\
   byte_val b = (16 * hi + lo)%Z /\
   decode d (b :: bs) =
     (r1.1 :: r2.1 :: (decode r2.2 bs).1, (decode r2.2 bs).2)) /\
  length (decode d bs).1 = 2 * length bs /\
  Forall (fun s => (-32768 <= s <= 32767)%Z) (decode d bs).1 /\
  (let out := output (run newTransform (c1 :: rest)) in
   take 44 out = makeHeader c1 /\
   length (makeHeader c1) = 44 /\
   length (drop 44 out) = 4 * (length (drop 44 c1) + length (concat rest)) /\
   length (drop 44 out) = 4 * (length c1 - 44 + length (concat rest))).
Proof.
  apply (decode_two_samples_per_byte
           {| predictor := 5; stepIndex := 30 |} x4f [x80; x17]
           (replicate 44 x11 ++ [x7f]) [[x3c; xf0]]).
  cbn. lia.
Defined.

(** C5, as the specification words it for every chunk sequence, fails on
    the stream without a chunk (an empty upload): [_transform] is never
    called, so no header is pushed, nothing is written, and the flag is
    still unset at the end. *)
Lemma empty_stream_no_header :
  List.filter is_header_push (all_pushes (run newTransform [])) = [] /\
  output (run newTransform []) = [] /\
  flag_trace (run newTransform []) = [] /\
  headerWritten
    (foldl (fun t chunk => after (_transform t chunk)) newTransform []) = false.
Proof. repeat split. Qed.

(** C5 (amended). Once-only header emission: on every stream that has a
    first chunk, a fresh transform (flag unset) handles every chunk,
    pushes the 44-byte header exactly once, as its very first push, every
    other push being a push of decoded samples, and the flag is set after
    the first chunk and after every later one. *)
Theorem header_emitted_once (c1 : Buffer) (rest : list Buffer) :
  let trace := run newTransform (c1 :: rest) in
  headerWritten newTransform = false /\
  length trace = S (length rest) /\
  (exists pcm, all_pushes trace = PushHeader (makeHeader c1) :: map PushPCM pcm) /\
  List.filter is_header_push (all_pushes trace) = [PushHeader (makeHeader c1)] /\
  length (makeHeader c1) = 44 /\
  flag_trace trace = replicate (S (length rest)) true.
Proof.
  intros trace. subst trace.
  split; [reflexivity |]. split; [by rewrite run_length |].
  rewrite run_cons, (transform_first newTransform c1 eq_refl). cbn [after].
  set (t' := {| decoder := _ |}).
  destruct (run_streaming t' rest eq_refl) as (Hp & Hf & _).
  rewrite all_pushes_cons. cbn [pushes].
  assert (Hex : exists pcm,
             PushHeader (makeHeader c1)
             :: (if 44 <? length c1
                 then [PushPCM (Buffer_from_int16
                                  (decode (decoder newTransform) (drop 44 c1)).1)]
                 else []) ++ all_pushes (run t' rest)
             = PushHeader (makeHeader c1) :: map PushPCM pcm).
  { rewrite Hp. destruct (44 <? length c1).
    - by eexists (_ :: _).
    - by eexists. }
  split; [exact Hex |]. destruct Hex as [pcm Hpcm].
  split; [| split; [apply makeHeader_length |]].
  - cbn [app] in Hpcm |- *. rewrite Hpcm. cbn [List.filter is_header_push].
    by rewrite filter_header_PushPCM.
  - cbn [flag_trace map after headerWritten replicate]. f_equal. exact Hf.
Qed.

(** C6. Emitted header field values: whatever the first chunk (so in
    particular when it has at least 44 bytes), the output starts with
    "RIFF" at 0-3, "WAVE" at 8-11, "fmt " at 12-15, and its little-endian
    fields read: format size 16 at 16-19, audio format 1 at 20-21, channel
    count 1 at 22-23, sample rate 16000 at 24-27, byte rate 32000 at
    28-31, block align 2 at 32-33, bits per sample 16 at 34-35; "data" is
    at 36-39. *)
Theorem header_field_values (c1 : Buffer) (rest : list Buffer) :
  let out := output (run newTransform (c1 :: rest)) in
  slice 0 4 out = list_byte_of_string "RIFF" /\
  slice 8 4 out = list_byte_of_string "WAVE" /\
  slice 12 4 out = list_byte_of_string "fmt " /\
  le_decode (slice 16 4 out) = 16%Z /\
  le_decode (slice 20 2 out) = 1%Z /\
  le_decode (slice 22 2 out) = 1%Z /\
  le_decode (slice 24 4 out) = 16000%Z /\
  le_decode (slice 28 4 out) = 32000%Z /\
  le_decode (slice 32 2 out) = 2%Z /\
  le_decode (slice 34 2 out) = 16%Z /\
  slice 36 4 out = list_byte_of_string "data".
Proof.
  intros out. subst out. rewrite run_first_output. unfold makeHeader.
  pose proof (rewriteHeader_fields _
    (Buffer_from_int16 (decode newDecoder (drop 44 c1 ++ concat rest)).1)
    (Buffer_copy_length c1)) as H.
  cbv zeta in H. tauto.
Qed.

(** C7, as the specification words it, fails: on a first chunk of three
    bytes the transform hands no error to its callback; it pushes a
    44-byte header whose bytes after the chunk's own (here offsets 4 to 7
    and 40 to 43, which the rewrite leaves alone) are the zero padding of
    the allocated buffer. *)
Lemma short_first_chunk_no_error :
  let r := _transform newTransform [x52; x49; x46] in
  callback_error r = None /\
  ~ is_Some (callback_error r) /\
  exists h, pushes r = [PushHeader h] /\ length h = 44%nat /\
            slice 4 4 h = [x00; x00; x00; x00] /\
            slice 40 4 h = [x00; x00; x00; x00].
Proof.
  cbv zeta. split; [reflexivity |]. split; [by intros [? ?] |].
  eexists. split; [reflexivity |]. by vm_compute.
Qed.

(** C7 (amended). When the first chunk has fewer than 44 bytes the
    transform surfaces no error, on that chunk or any later one: it pushes
    the header rewritten over the chunk's bytes padded with zero bytes to
    44, pushes no samples for that chunk, leaves the decoder in its
    initial state with the flag set, and decodes every later chunk
    entirely as payload. *)
Theorem short_first_chunk_padded (c1 : Buffer) (rest : list Buffer) :
  length c1 < 44 ->
  let r := _transform newTransform c1 in
  callback_error r = None /\
  pushes r =
    [PushHeader (rewriteHeader (c1 ++ replicate (44 - length c1) x00))] /\
  after r = {| decoder := newDecoder; headerWritten := true; dataSize := 0 |} /\
  Forall (fun r' => callback_error r' = None) (run newTransform (c1 :: rest)) /\
  output (run newTransform (c1 :: rest)) =
    rewriteHeader (c1 ++ replicate (44 - length c1) x00) ++
    Buffer_from_int16 (decode newDecoder (concat rest)).1.
Proof.
  intros Hlen r. subst r.
  assert (Hh : makeHeader c1 =
               rewriteHeader (c1 ++ replicate (44 - length c1) x00)).
  { unfold makeHeader. by rewrite Buffer_copy_short. }
  rewrite run_first_output, (transform_first newTransform c1 eq_refl).
  cbn [callback_error pushes after]. rewrite drop_ge by lia.
  destruct (Nat.ltb_spec 44 (length c1)) as [Hlt | _]; [lia |].
  rewrite Hh. repeat split. apply run_no_error.
Qed.

Lemma short_first_chunk_padded_witness :
  let r := _transform newTransform [x52; x49; x46] in
  callback_error r = None /\
  pushes r =
    [PushHeader (rewriteHeader
                   ([x52; x49; x46] ++
                    replicate (44 - length [x52; x49; x46]) x00))] /\
  after r = {| decoder := newDecoder; headerWritten := true; dataSize := 0 |} /\
  Forall (fun r' => callback_error r' = None)
    (run newTransform ([x52; x49; x46] :: [[x7f]])) /\
  output (run newTransform ([x52; x49; x46] :: [[x7f]])) =
    rewriteHeader ([x52; x49; x46] ++
                   replicate (44 - length [x52; x49; x46]) x00) ++
    Buffer_from_int16 (decode newDecoder (concat [[x7f]])).1.
Proof.
  apply (short_first_chunk_padded [x52; x49; x46] [[x7f]]).
  vm_compute. lia.
Defined.

(** C9. Data-size field pass-through: for a first chunk of at least 44
    bytes, bytes 40 to 43 of the whole output, whatever payload follows,
    are bytes 40 to 43 of the input; of the first 44 bytes the rewrite
    changes none outside its fields, which lie at offsets 0 to 39 (bytes
    4 to 7, not among the fields, pass through as well). *)
Theorem data_size_field_passthrough (c1 : Buffer) (rest : list Buffer) :
  44 <= length c1 ->
  let out := output (run newTransform (c1 :: rest)) in
  slice 40 4 out = slice 40 4 c1 /\
  length (slice 40 4 c1) = 4 /\
  slice 4 4 out = slice 4 4 c1 /\
  (forall i, i < 44 -> out !! i <> c1 !! i -> (i < 4 \/ 8 <= i < 40)).
Proof.
  intros Hlen out. subst out. rewrite run_first_output. unfold makeHeader.
  set (tail := Buffer_from_int16 _).
  pose proof (rewriteHeader_fields _ tail (Buffer_copy_length c1)) as H.
  cbv zeta in H.
  destruct H as (_ & H4 & _ & _ & _ & _ & _ & _ & _ & _ & _ & _ & H40).
  rewrite Buffer_copy_full in * by exact Hlen.
  rewrite slice_take in H4, H40 by lia.
  split; [exact H40 |]. split.
  { unfold slice. rewrite length_take, length_drop. lia. }
  split; [exact H4 |].
  intros i Hi Hne.
  destruct (decide (i < 4 \/ 8 <= i < 40)) as [Hin | Hout]; [exact Hin |].
  exfalso. apply Hne. unfold slice in H4, H40.
  assert (Hcase : 4 <= i < 8 \/ 40 <= i < 44) by lia.
  destruct Hcase as [Hr | Hr].
  - apply (f_equal (fun l => l !! (i - 4))) in H4. cbv beta in H4.
    rewrite !lookup_take_lt, !lookup_drop in H4 by lia.
    by replace (4 + (i - 4)) with i in H4 by lia.
  - apply (f_equal (fun l => l !! (i - 40))) in H40. cbv beta in H40.
    rewrite !lookup_take_lt, !lookup_drop in H40 by lia.
    by replace (40 + (i - 40)) with i in H40 by lia.
Qed.

Lemma data_size_field_passthrough_witness :
  let c1 := replicate 40 x11 ++ [xde; xad; xbe; xef; x7f] in
  let out := output (run newTransform (c1 :: [[x3c; xf0]])) in
  slice 40 4 out = slice 40 4 c1 /\
  length (slice 40 4 c1) = 4 /\
  slice 4 4 out = slice 4 4 c1 /\
  (forall i, i < 44 -> out !! i <> c1 !! i -> (i < 4 \/ 8 <= i < 40)).
Proof.
  apply (data_size_field_passthrough
           (replicate 40 x11 ++ [xde; xad; xbe; xef; x7f]) [[x3c; xf0]]).
  vm_compute. lia.
Defined.

End TransformClaims.

(** * Further properties of the sample decoder *)

Section DecoderMore.

Lemma stepTable_entry (i : Z) :
  0 <= i <= 88 -> 7 <= typed_get stepTable i <= 32767.
Proof.
  intros Hi. rewrite typed_get_nth by lia.
  assert (Hn : (Z.to_nat i < 89)%nat) by lia.
  revert Hn. generalize (Z.to_nat i) as n. intros n Hn.
  do 89 (destruct n as [| n]; [vm_compute; intuition congruence |]). lia.
Qed.

Lemma stepTable_adjacent (n : nat) :
  (n < 88)%nat -> nth n stepTable 0 < nth (S n) stepTable 0.
Proof.
  intros Hn.
  do 88 (destruct n as [| n]; [reflexivity |]). lia.
Qed.

Lemma stepTable_increasing (i j : nat) :
  (i < j)%nat -> (j < 89)%nat -> nth i stepTable 0 < nth j stepTable 0.
Proof.
  intros Hij Hj. induction j as [| j IH]; [lia |].
  destruct (decide (i = j)) as [-> | Hne].
  - apply stepTable_adjacent. lia.
  - transitivity (nth j stepTable 0); [apply IH; lia |].
    apply stepTable_adjacent. lia.
Qed.

Lemma difference_bounds step c :
  0 < step -> code4 c -> 0 <= difference step c < 2 * step.
Proof.
  intros Hs Hc. rewrite (difference_magnitude step c Hc).
  unfold Spec.magnitude. rewrite !Z.shiftr_div_pow2 by lia.
  change (2 ^ 3) with 8. change (2 ^ 2) with 4. change (2 ^ 1) with 2.
  destruct (Z.testbit c 2), (Z.testbit c 1), (Z.testbit c 0);
    Z.to_euclidean_division_equations; lia.
Qed.

Lemma stepIndex_update d c :
  0 <= stepIndex d <= 88 ->
  code4 c ->
  stepIndex (decodeSample d c).2 =
    if Z.land c 7 <? 4
    then Z.max 0 (stepIndex d - 1)
    else Z.min 88 (stepIndex d + 2 * (Z.land c 7 - 3)).
Proof.
  intros Hsi Hc. cbn [decodeSample snd stepIndex]. unfold clamp.
  revert c Hc.
  apply code4_cases;
    match goal with
    | |- context [typed_get indexTable ?k] =>
        change (typed_get indexTable k)
          with (ltac:(let v := eval vm_compute in (typed_get indexTable k) in
                      exact v));
        change (Z.land k 7)
          with (ltac:(let v := eval vm_compute in (Z.land k 7) in exact v))
    end; cbn [Z.ltb Z.compare Pos.compare Pos.compare_cont]; lia.
Qed.

End DecoderMore.

(** The two codes of a byte are its two hexadecimal digits: each is a
    4-bit value and together they determine the byte, the first code that
    [decode] processes being the high digit. *)
Theorem nibbles_of_byte (b : byte) :
  byte_val b = 16 * high_nibble b + low_nibble b /\
  0 <= high_nibble b < 16 /\ 0 <= low_nibble b < 16.
Proof. destruct b; vm_compute; intuition congruence. Qed.

(** Step adaptation law: with the step index inside the table, a code
    whose magnitude bits [code & 7] are below 4 lowers the step index by
    one, never below 0, and a code with magnitude 4, 5, 6 or 7 raises it
    by 2, 4, 6 or 8, never above 88. *)
Theorem stepIndex_adaptation (d : ADPCMDecoder) (c : Z) :
  0 <= stepIndex d <= 88 ->
  code4 c ->
  stepIndex (decodeSample d c).2 =
    if Z.land c 7 <? 4
    then Z.max 0 (stepIndex d - 1)
    else Z.min 88 (stepIndex d + 2 * (Z.land c 7 - 3)).
Proof. exact (stepIndex_update d c). Qed.

Lemma stepIndex_adaptation_witness :
  stepIndex (decodeSample {| predictor := -40; stepIndex := 86 |} 14).2 =
    if Z.land 14 7 <? 4
    then Z.max 0 (stepIndex {| predictor := -40; stepIndex := 86 |} - 1)
    else Z.min 88 (stepIndex {| predictor := -40; stepIndex := 86 |}
                   + 2 * (Z.land 14 7 - 3)).
Proof.
  apply (stepIndex_adaptation {| predictor := -40; stepIndex := 86 |} 14).
  - cbn. lia.
  - unfold code4. lia.
Defined.

(** The step size follows the code: from a decoder whose step index is in
    the table, a code of magnitude 4 or more makes the next step size
    strictly larger unless the index is already 88, and a code of
    magnitude below 4 makes it strictly smaller unless the index is 0. *)
Theorem step_size_adapts (d : ADPCMDecoder) (c : Z) :
  0 <= stepIndex d <= 88 ->
  code4 c ->
  (4 <= Z.land c 7 -> stepIndex d < 88 ->
   typed_get stepTable (stepIndex d)
   < typed_get stepTable (stepIndex (decodeSample d c).2)) /\
  (Z.land c 7 < 4 -> 0 < stepIndex d ->
   typed_get stepTable (stepIndex (decodeSample d c).2)
   < typed_get stepTable (stepIndex d)).
Proof.
  intros Hsi Hc.
  assert (Hland : 0 <= Z.land c 7 < 8).
  { generalize c Hc. apply code4_cases; by vm_compute. }
  pose proof (decodeSample_stepIndex_range d c) as Hr.
  pose proof (stepIndex_update d c Hsi Hc) as Hidx.
  rewrite !typed_get_nth by lia.
  split; intros Hm Hs; apply stepTable_increasing;
    destruct (Z.ltb_spec (Z.land c 7) 4); lia.
Qed.

Lemma step_size_adapts_witness :
  (4 <= Z.land 5 7 -> stepIndex {| predictor := 12; stepIndex := 30 |} < 88 ->
   typed_get stepTable (stepIndex {| predictor := 12; stepIndex := 30 |})
   < typed_get stepTable
       (stepIndex (decodeSample {| predictor := 12; stepIndex := 30 |} 5).2)) /\
  (Z.land 5 7 < 4 -> 0 < stepIndex {| predictor := 12; stepIndex := 30 |} ->
   typed_get stepTable
     (stepIndex (decodeSample {| predictor := 12; stepIndex := 30 |} 5).2)
   < typed_get stepTable (stepIndex {| predictor := 12; stepIndex := 30 |})).
Proof.
  apply (step_size_adapts {| predictor := 12; stepIndex := 30 |} 5).
  - cbn. lia.
  - unfold code4. lia.
Defined.

Section DecodeMore.

Lemma bit_set_sign c : code4 c -> bit_set c 8 = (8 <=? c).
Proof. revert c. apply code4_cases; reflexivity. Qed.

Lemma byte_val_byte_of_Z z : byte_val (byte_of_Z z) = z mod 256.
Proof.
  unfold byte_val, byte_of_Z.
  pose proof (Z.mod_pos_bound z 256 ltac:(lia)) as Hm.
  destruct (Byte.of_N (Z.to_N (z mod 256))) as [b |] eqn:E.
  - apply Byte.to_of_N in E. simpl. rewrite E. lia.
  - apply Byte.of_N_None_iff in E. lia.
Qed.

Lemma read_int16_le_sample s :
  -32768 <= s <= 32767 -> to_int16 (le_decode (int_le 2 s)) = s.
Proof.
  intros Hs. cbn [int_le le_decode foldr].
  rewrite !byte_val_byte_of_Z. unfold to_int16.
  Z.to_euclidean_division_equations. lia.
Qed.

Lemma read_int16_le_from_int16 samples :
  Forall (fun s => -32768 <= s <= 32767) samples ->
  read_int16_le (Buffer_from_int16 samples) = samples.
Proof.
  induction 1 as [| s samples Hs _ IH]; [reflexivity |].
  unfold Buffer_from_int16 in *. cbn [flat_map].
  change (int_le 2 s) with [byte_of_Z s; byte_of_Z (s / 256)].
  cbn [app read_int16_le]. rewrite IH. f_equal.
  exact (read_int16_le_sample s Hs).
Qed.

Lemma decodeSamples_cons d c codes :
  decodeSamples d (c :: codes) = decodeSamples (decodeSample d c).2 codes.
Proof. reflexivity. Qed.

Lemma decode_state_nibbles d bs :
  (decode d bs).2 = decodeSamples d (nibbles bs).
Proof.
  revert d. induction bs as [| b bs IH]; intros d; [reflexivity |].
  rewrite decode_cons. cbn zeta. cbn [snd].
  unfold nibbles. cbn [flat_map app]. rewrite !decodeSamples_cons. apply IH.
Qed.

Lemma decode_sample_at d bs (n : nat) :
  (n < 2 * length bs)%nat ->
  (decode d bs).1 !! n =
    Some (predictor (decodeSamples d (take (S n) (nibbles bs)))).
Proof.
  revert d n. induction bs as [| b bs IH]; intros d n Hn;
    [cbn [length] in Hn; lia |].
  rewrite decode_cons. cbn zeta. cbn [fst].
  unfold nibbles. cbn [flat_map app]. fold (nibbles bs).
  destruct n as [| [| n]].
  - reflexivity.
  - reflexivity.
  - cbn [lookup list_lookup]. rewrite IH by (cbn [length] in Hn; lia).
    reflexivity.
Qed.

End DecodeMore.

(** Direction and size of a predictor update: for a decoder in its
    ranges and a 4-bit code, the magnitude added or subtracted is at
    least 0 and below twice the current step; a code below 8 (sign bit
    clear) never lowers the predictor and raises it by at most that
    magnitude, a code of 8 or more never raises it and lowers it by at
    most that magnitude. *)
Theorem predictor_update_direction (d : ADPCMDecoder) (c : Z) :
  decoder_ok d ->
  code4 c ->
  let diff := difference (typed_get stepTable (stepIndex d)) c in
  let sample := (decodeSample d c).1 in
  0 <= diff < 2 * typed_get stepTable (stepIndex d) /\
  (c < 8 -> predictor d <= sample <= predictor d + diff) /\
  (8 <= c -> predictor d - diff <= sample <= predictor d).
Proof.
  intros [Hp Hsi] Hc diff sample.
  pose proof (stepTable_entry (stepIndex d) Hsi) as Hstep.
  assert (Hd : 0 <= diff < 2 * typed_get stepTable (stepIndex d)).
  { apply difference_bounds; [lia | exact Hc]. }
  split; [exact Hd |].
  subst sample. cbn [decodeSample fst]. fold diff.
  rewrite (bit_set_sign c Hc). unfold clamp.
  split; intros Hsign; destruct (Z.leb_spec 8 c); lia.
Qed.

Lemma predictor_update_direction_witness :
  let d := {| predictor := 32000; stepIndex := 60 |} in
  let diff := difference (typed_get stepTable (stepIndex d)) 7 in
  let sample := (decodeSample d 7).1 in
  0 <= diff < 2 * typed_get stepTable (stepIndex d) /\
  (7 < 8 -> predictor d <= sample <= predictor d + diff) /\
  (8 <= 7 -> predictor d - diff <= sample <= predictor d).
Proof.
  apply (predictor_update_direction {| predictor := 32000; stepIndex := 60 |} 7).
  - unfold decoder_ok. cbn. lia.
  - unfold code4. lia.
Defined.

(** [decode] is [decodeSample] iterated over the nibbles of the input,
    high nibble first: for a decoder whose step index is inside the step
    table, the codes are, byte after byte, the quotient and then the
    remainder of the byte by 16, all of them 4-bit values; the decoder
    [decode] leaves is the one reached by calling [decodeSample] on those
    codes in order, and its [n]-th sample is the predictor after the first
    [n + 1] of these calls. *)
Theorem decode_iterates_decodeSample (d : ADPCMDecoder) (bs : Buffer) :
  0 <= stepIndex d <= 88 ->
  let codes := flat_map (fun b => [byte_val b / 16; byte_val b mod 16]) bs in
  (decode d bs).2 = decodeSamples d codes /\
  length codes = (2 * length bs)%nat /\
  Forall code4 codes /\
  forall n : nat,
    (n < 2 * length bs)%nat ->
    (decode d bs).1 !! n =
      Some (predictor (decodeSamples d (take (S n) codes))).
Proof.
  intros _ codes.
  assert (Hcodes : codes = nibbles bs).
  { subst codes. unfold nibbles. induction bs as [| b bs IH]; [reflexivity |].
    cbn [flat_map]. rewrite IH.
    by destruct (nibble_div_mod b) as [-> ->]. }
  rewrite Hcodes. clear Hcodes codes.
  split; [apply decode_state_nibbles |]. split; [| split].
  - unfold nibbles. induction bs as [| b bs IH]; [reflexivity |].
    cbn [flat_map app length]. rewrite IH. lia.
  - unfold nibbles. induction bs as [| b bs IH]; [constructor |].
    cbn [flat_map app]. destruct (nibble_range b) as [Hhi Hlo].
    constructor; [exact Hhi | constructor; [exact Hlo | exact IH]].
  - intros n Hn. by apply decode_sample_at.
Qed.

Lemma decode_iterates_decodeSample_witness :
  let d := {| predictor := -200; stepIndex := 88 |} in
  let bs := [x4f; x80; x17] in
  let codes := flat_map (fun b => [byte_val b / 16; byte_val b mod 16]) bs in
  (decode d bs).2 = decodeSamples d codes /\
  length codes = (2 * length bs)%nat /\
  Forall code4 codes /\
  forall n : nat,
    (n < 2 * length bs)%nat ->
    (decode d bs).1 !! n =
      Some (predictor (decodeSamples d (take (S n) codes))).
Proof.
  apply (decode_iterates_decodeSample
           {| predictor := -200; stepIndex := 88 |} [x4f; x80; x17]).
  cbn. lia.
Defined.

(** Decoding a concatenation, from any decoder state, is decoding the
    first part and then the second part with the decoder the first part
    leaves: the samples are the two sample blocks in order and the final
    decoder is the same. *)
Theorem decode_concatenation (d : ADPCMDecoder) (a b : Buffer) :
  (decode d (a ++ b)).1 = (decode d a).1 ++ (decode (decode d a).2 b).1 /\
  (decode d (a ++ b)).2 = (decode (decode d a).2 b).2.
Proof. by rewrite decode_app. Qed.

(** The emitted sample bytes read back: taking the bytes after the
    44-byte header two at a time as signed little-endian 16-bit integers
    gives exactly the samples [decode] produced for the payload, and the
    same holds for the bytes of any decoded block. *)
Theorem samples_read_back :
  (forall d bs,
     read_int16_le (Buffer_from_int16 (decode d bs).1) = (decode d bs).1) /\
  (forall c1 rest,
     read_int16_le (drop 44 (output (run newTransform (c1 :: rest)))) =
       (decode newDecoder (drop 44 c1 ++ concat rest)).1).
Proof.
  split.
  - intros d bs. apply read_int16_le_from_int16, decode_samples_int16.
  - intros c1 rest. rewrite run_first_output.
    rewrite drop_app_length' by (symmetry; apply makeHeader_length).
    apply read_int16_le_from_int16, decode_samples_int16.
Qed.

(** * Further properties of the streaming transform *)

Section TransformMore.

Local Open Scope nat_scope.

Lemma decode_ok d bs : decoder_ok d -> decoder_ok (decode d bs).2.
Proof. intros Hd. rewrite decode_state_nibbles. by apply decodeSamples_ok. Qed.

(** The transform after the last call of a run that started streaming. *)
Lemma run_streaming_last t c cs :
  headerWritten t = true ->
  after <$> last (run t (c :: cs)) =
    Some {| decoder := (decode (decoder t) (concat (c :: cs))).2;
            headerWritten := true; dataSize := dataSize t |}.
Proof.
  revert t c. induction cs as [| c' cs IH]; intros t c Hw.
  - rewrite run_cons, (transform_streaming _ _ Hw). cbn [run last fmap
      option_fmap option_map after concat]. by rewrite app_nil_r.
  - rewrite run_cons, (transform_streaming _ _ Hw). cbn [after].
    set (t' := {| decoder := _ |}).
    pose proof (IH t' c' eq_refl) as H.
    rewrite run_cons in H |- *. cbn [last] in H |- *.
    rewrite H. cbn [decoder dataSize t' concat].
    rewrite (decode_app _ c). cbn [snd]. reflexivity.
Qed.

Lemma rewriteHeader_bytes (h : Buffer) :
  length h = 44 ->
  rewriteHeader h =
    list_byte_of_string "RIFF" ++ slice 4 4 h ++
    list_byte_of_string "WAVEfmt " ++
    [x10; x00; x00; x00; x01; x00; x01; x00; x80; x3e; x00; x00;
     x00; x7d; x00; x00; x02; x00; x10; x00] ++
    list_byte_of_string "data" ++ slice 40 4 h.
Proof.
  intros Hlen.
  do 44 (destruct h as [| ? h]; [discriminate Hlen |]).
  destruct h; [reflexivity | discriminate Hlen].
Qed.

Lemma rewriteHeader_idempotent (h : Buffer) :
  length h = 44 -> rewriteHeader (rewriteHeader h) = rewriteHeader h.
Proof.
  intros Hlen.
  do 44 (destruct h as [| ? h]; [discriminate Hlen |]).
  destruct h; [reflexivity | discriminate Hlen].
Qed.

Lemma read_chunks_concat fuel hwm (content : Buffer) :
  0 < hwm -> length content <= fuel ->
  concat (read_chunks fuel hwm content) = content.
Proof.
  intros Hh. revert content.
  induction fuel as [| fuel IH]; intros content Hlen.
  - destruct content; [reflexivity | cbn [length] in Hlen; lia].
  - cbn [read_chunks]. destruct content as [| b content']; [reflexivity |].
    set (content := b :: content') in *. cbn [concat].
    rewrite IH; [apply take_drop |].
    rewrite length_drop. subst content. cbn [length] in *. lia.
Qed.

Lemma createReadStream_nonempty hwm (content : Buffer) :
  0 < hwm -> content <> [] ->
  exists rest,
    createReadStream hwm content = take hwm content :: rest /\
    concat rest = drop hwm content.
Proof.
  intros Hh Hne. unfold createReadStream.
  destruct content as [| b content']; [done |].
  set (content := b :: content') in *.
  change (length content) with (S (length content')).
  cbn [read_chunks]. subst content. eexists. split; [reflexivity |].
  apply read_chunks_concat; [exact Hh |].
  rewrite length_drop. cbn [length]. lia.
Qed.

End TransformMore.

Section TransformExtras.

Local Open Scope nat_scope.

(** The transform after a whole stream that has a first chunk: the flag
    is set, [dataSize] is still the 0 of the constructor (nothing ever
    adds to it), and the decoder is the one left by decoding, in one go,
    the bytes after offset 44 of the first chunk followed by all later
    chunks; that decoder is within its ranges. *)
Theorem transform_final_state (c1 : Buffer) (rest : list Buffer) :
  exists r,
    last (run newTransform (c1 :: rest)) = Some r /\
    after r =
      {| decoder := (decode newDecoder (drop 44 c1 ++ concat rest)).2;
         headerWritten := true; dataSize := 0 |} /\
    decoder_ok (decoder (after r)).
Proof.
  assert (H : after <$> last (run newTransform (c1 :: rest)) =
              Some {| decoder :=
                        (decode newDecoder (drop 44 c1 ++ concat rest)).2;
                      headerWritten := true; dataSize := 0 |}).
  { rewrite run_cons, (transform_first newTransform c1 eq_refl). cbn [after].
    set (t' := {| decoder := _ |}).
    destruct rest as [| c2 rest].
    - cbn [run last fmap option_fmap option_map after concat].
      by rewrite app_nil_r.
    - pose proof (run_streaming_last t' c2 rest eq_refl) as H.
      rewrite run_cons in H |- *. cbn [last] in H |- *. rewrite H.
      cbn [decoder dataSize t' newTransform]. by rewrite decode_app. }
  destruct (last (run newTransform (c1 :: rest))) as [r |]; [| discriminate H].
  exists r. split; [reflexivity |]. injection H as H. split; [exact H |].
  rewrite H. cbn [decoder]. apply decode_ok, newDecoder_ok.
Qed.

(** Splitting the header across chunks changes the output: when the
    first chunk has fewer than 44 bytes of a stream of at least 44, the
    bytes that complete the header are decoded as audio, so the output is
    4 bytes longer for each header byte missing from the first chunk than
    the output for the same stream delivered as one chunk. *)
Theorem split_header_changes_output (c1 : Buffer) (rest : list Buffer) :
  length c1 < 44 ->
  44 <= length (c1 ++ concat rest) ->
  length (output (run newTransform (c1 :: rest))) =
    length (output (run newTransform [c1 ++ concat rest]))
    + 4 * (44 - length c1) /\
  output (run newTransform (c1 :: rest)) <>
    output (run newTransform [c1 ++ concat rest]).
Proof.
  intros Hshort Hlong.
  assert (Hlen : length (output (run newTransform (c1 :: rest))) =
                 length (output (run newTransform [c1 ++ concat rest]))
                 + 4 * (44 - length c1)).
  { rewrite !run_first_output, !length_app, !makeHeader_length.
    rewrite !Buffer_from_int16_length, !decode_length.
    cbn [concat]. rewrite drop_ge by lia.
    rewrite !length_app, !length_drop, !length_app. cbn [length].
    rewrite length_app in Hlong. lia. }
  split; [exact Hlen |]. intros Heq. rewrite Heq in Hlen. lia.
Qed.

Lemma split_header_changes_output_witness :
  length (output (run newTransform
                    (replicate 40 x11 :: [replicate 6 x22]))) =
    length (output (run newTransform
                      [replicate 40 x11 ++ concat [replicate 6 x22]]))
    + 4 * (44 - length (replicate 40 x11)) /\
  output (run newTransform (replicate 40 x11 :: [replicate 6 x22])) <>
    output (run newTransform [replicate 40 x11 ++ concat [replicate 6 x22]]).
Proof.
  apply (split_header_changes_output (replicate 40 x11) [replicate 6 x22]).
  - vm_compute. lia.
  - vm_compute. lia.
Defined.

(** The complete emitted header: for a first chunk of at least 44 bytes
    the 44 header bytes are "RIFF", the chunk's bytes 4 to 7, "WAVEfmt ",
    the fixed format fields, "data" and the chunk's bytes 40 to 43; so
    nothing else of the input header (its magic, format tag, channel
    count, rates) has any influence on the output. *)
Theorem header_bytes (chunk : Buffer) :
  44 <= length chunk ->
  makeHeader chunk =
    list_byte_of_string "RIFF" ++ slice 4 4 chunk ++
    list_byte_of_string "WAVEfmt " ++
    [x10; x00; x00; x00; x01; x00; x01; x00; x80; x3e; x00; x00;
     x00; x7d; x00; x00; x02; x00; x10; x00] ++
    list_byte_of_string "data" ++ slice 40 4 chunk.
Proof.
  intros Hlen. unfold makeHeader. rewrite Buffer_copy_full by exact Hlen.
  rewrite rewriteHeader_bytes by (rewrite length_take; lia).
  by rewrite !slice_take by lia.
Qed.

Lemma header_bytes_witness :
  makeHeader (replicate 50 x2a) =
    list_byte_of_string "RIFF" ++ slice 4 4 (replicate 50 x2a) ++
    list_byte_of_string "WAVEfmt " ++
    [x10; x00; x00; x00; x01; x00; x01; x00; x80; x3e; x00; x00;
     x00; x7d; x00; x00; x02; x00; x10; x00] ++
    list_byte_of_string "data" ++ slice 40 4 (replicate 50 x2a).
Proof.
  apply (header_bytes (replicate 50 x2a)). vm_compute. lia.
Defined.

(** The header rewrite is idempotent: a stream that already starts with
    a header this transform emitted gets the very same header again,
    whatever the first chunk it came from and whatever follows it. *)
Theorem header_rewrite_idempotent (chunk tail : Buffer) :
  makeHeader (makeHeader chunk ++ tail) = makeHeader chunk.
Proof.
  pose proof (makeHeader_length chunk) as Hlen.
  rewrite <- (makeHeader_take (makeHeader chunk ++ tail))
    by (rewrite length_app; lia).
  rewrite take_app_length' by (symmetry; exact Hlen).
  unfold makeHeader at 1.
  rewrite Buffer_copy_full by lia. rewrite take_ge by lia.
  unfold makeHeader. apply rewriteHeader_idempotent, Buffer_copy_length.
Qed.

Lemma convert_cases (highWaterMark : nat) (content : Buffer) :
  44 <= highWaterMark ->
  (content = [] -> convert highWaterMark content = []) /\
  (0 < length content < 44 ->
   convert highWaterMark content = makeHeader content /\
   length (convert highWaterMark content) = 44) /\
  (44 <= length content ->
   convert highWaterMark content =
     makeHeader content ++
     Buffer_from_int16 (decode newDecoder (drop 44 content)).1 /\
   length (convert highWaterMark content) = 4 * length content - 132).
Proof.
  intros Hh. unfold convert. split; [by intros -> |].
  assert (Hrun : content <> [] ->
            output (run newTransform (createReadStream highWaterMark content)) =
            makeHeader (take highWaterMark content) ++
            Buffer_from_int16
              (decode newDecoder
                 (drop 44 (take highWaterMark content)
                  ++ drop highWaterMark content)).1).
  { intros Hne.
    destruct (createReadStream_nonempty highWaterMark content) as (rest & -> & Hc);
      [lia | exact Hne |].
    by rewrite run_first_output, Hc. }
  split.
  - intros Hlen. rewrite Hrun by (intros ->; cbn [length] in Hlen; lia).
    rewrite take_ge, !drop_ge by lia. cbn [app decode fst].
    rewrite app_nil_r. split; [reflexivity | apply makeHeader_length].
  - intros Hlen. rewrite Hrun by (intros ->; cbn [length] in Hlen; lia).
    assert (Hhead : makeHeader (take highWaterMark content) = makeHeader content).
    { rewrite <- (makeHeader_take (take highWaterMark content))
        by (rewrite length_take; lia).
      rewrite take_take, Nat.min_l by lia. by apply makeHeader_take. }
    assert (Hdrop : drop 44 (take highWaterMark content)
                    ++ drop highWaterMark content = drop 44 content).
    { rewrite <- (take_drop highWaterMark content) at 3.
      rewrite drop_app_le; [reflexivity |]. rewrite length_take. lia. }
    rewrite Hhead, Hdrop. split; [reflexivity |].
    rewrite length_app, makeHeader_length, Buffer_from_int16_length.
    rewrite decode_length, length_drop. lia.
Qed.

(** Converting a whole file through the read stream, for any chunk size
    of at least 44 bytes: an empty file gives an empty output (no header
    at all); a file shorter than 44 bytes gives exactly the 44 header
    bytes; a file of [n >= 44] bytes gives the header of its first 44
    bytes followed by the samples of its remaining bytes, [4 * n - 132]
    bytes in all, independently of the chunk size. *)
Theorem convert_whole_file (highWaterMark : nat) (content : Buffer) :
  44 <= highWaterMark ->
  (content = [] -> convert highWaterMark content = []) /\
  (0 < length content < 44 ->
   convert highWaterMark content = makeHeader content /\
   length (convert highWaterMark content) = 44) /\
  (44 <= length content ->
   convert highWaterMark content =
     makeHeader content ++
     Buffer_from_int16 (decode newDecoder (drop 44 content)).1 /\
   length (convert highWaterMark content) = 4 * length content - 132).
Proof. exact (convert_cases highWaterMark content). Qed.

Lemma convert_whole_file_witness :
  (replicate 100 x5a = [] -> convert 48 (replicate 100 x5a) = []) /\
  (0 < length (replicate 100 x5a) < 44 ->
   convert 48 (replicate 100 x5a) = makeHeader (replicate 100 x5a) /\
   length (convert 48 (replicate 100 x5a)) = 44) /\
  (44 <= length (replicate 100 x5a) ->
   convert 48 (replicate 100 x5a) =
     makeHeader (replicate 100 x5a) ++
     Buffer_from_int16 (decode newDecoder (drop 44 (replicate 100 x5a))).1 /\
   length (convert 48 (replicate 100 x5a)) =
     4 * length (replicate 100 x5a) - 132).
Proof.
  apply (convert_whole_file 48 (replicate 100 x5a)). lia.
Defined.

End TransformExtras.

(** * Properties of the file names and of the routes *)

Module RoutesFacts.

Import Routes.

Local Open Scope string_scope.

Lemma string_length_app a b :
  String.length (a ++ b) = (String.length a + String.length b)%nat.
Proof. induction a as [| c a IH]; cbn; [reflexivity | by rewrite IH]. Qed.

Lemma string_app_assoc a b c : (a ++ b) ++ c = a ++ b ++ c.
Proof. induction a as [| x a IH]; cbn; [reflexivity | by rewrite IH]. Qed.

Lemma string_drop_app a b : string_drop (String.length a) (a ++ b) = b.
Proof. induction a as [| c a IH]; cbn; [by destruct b | exact IH]. Qed.

Lemma prefix_app p t : String.prefix p (p ++ t) = true.
Proof.
  induction p as [| c p IH]; cbn; [by destruct t |].
  by destruct (ascii_dec c c).
Qed.

Lemma has_char_app c a b : has_char c (a ++ b) = has_char c a || has_char c b.
Proof.
  induction a as [| x a IH]; cbn; [reflexivity |].
  by rewrite IH, orb_assoc.
Qed.

(** Replacing a pattern whose first character does not occur before it
    rewrites exactly that occurrence. *)
Lemma replace_first c p s t r :
  has_char c s = false ->
  replace (s ++ String c p ++ t) (String c p) r = s ++ r ++ t.
Proof.
  induction s as [| a s IH]; intros Hc.
  - change ("" ++ String c p ++ t) with (String c p ++ t).
    assert (Hp : String.prefix (String c p) (String c p ++ t) = true)
      by apply prefix_app.
    assert (Hd : string_drop (String.length (String c p)) (String c p ++ t) = t)
      by apply string_drop_app.
    cbn [append] in Hp, Hd |- *. cbn [replace]. by rewrite Hp, Hd.
  - cbn [has_char] in Hc. apply orb_false_iff in Hc as [Hac Hs].
    change (String a s ++ String c p ++ t)
      with (String a (s ++ String c p ++ t)).
    cbn [replace String.prefix].
    destruct (ascii_dec c a) as [-> | _].
    + by rewrite Ascii.eqb_refl in Hac.
    + by rewrite IH.
Qed.

Lemma endsWith_app s suffix : endsWith (s ++ suffix) suffix = true.
Proof.
  unfold endsWith. rewrite string_length_app.
  replace (String.length s + String.length suffix - String.length suffix)%nat
    with (String.length s) by lia.
  rewrite string_drop_app, String.eqb_refl, andb_true_r.
  apply Nat.leb_le. lia.
Qed.

Lemma digits_no_char (c : ascii) (u : Decimal.uint) :
  has_char c "0123456789" = false ->
  has_char c (NilEmpty.string_of_uint u) = false.
Proof.
  intros Hc. cbn [has_char] in Hc.
  repeat (apply orb_false_iff in Hc as [? Hc]).
  induction u as [| u IH | u IH | u IH | u IH | u IH | u IH | u IH | u IH
                  | u IH | u IH];
    cbn [NilEmpty.string_of_uint has_char]; [reflexivity | ..];
    rewrite IH, orb_false_r; assumption.
Qed.

Lemma decimal_no_dot n : has_char "." (decimal n) = false.
Proof. by apply digits_no_char. Qed.

Lemma decimal_no_slash n : has_char "/" (decimal n) = false.
Proof. by apply digits_no_char. Qed.

Lemma basename_in_directory dir x :
  has_char "/" x = false -> basename (dir ++ "/" ++ x) = x.
Proof.
  intros Hx. induction dir as [| a dir IH].
  - cbn. by rewrite Hx.
  - cbn [append basename]. fold (append dir ("/" ++ x)).
    rewrite has_char_app. cbn [append has_char]. rewrite Ascii.eqb_refl.
    cbn [orb]. rewrite orb_true_r. exact IH.
Qed.

(** The name of the converted file, for a [.wav] name without an earlier
    dot. *)
Lemma replace_wav stem :
  has_char "." stem = false ->
  replace (stem ++ ".wav") ".wav" "_pcm.wav" = stem ++ "_pcm.wav".
Proof.
  intros Hs.
  pose proof (replace_first "." "wav" stem "" "_pcm.wav" Hs) as H.
  exact H.
Qed.

Lemma statSync_Some_In (d : Dir) f st :
  statSync d f = Some st -> In f (map fst d).
Proof.
  induction d as [| [n st0] d IH]; [discriminate |].
  cbn [statSync map fst]. destruct (String.eqb_spec n f) as [-> | _].
  - intros _. by left.
  - intros Hst. right. by apply IH.
Qed.

Lemma recording_of_Some (d : Dir) f st :
  statSync d f = Some st ->
  recording_of d f =
    Some {| name := f;
            pcmName := replace f ".wav" "_pcm.wav";
            originalSize := size st;
            pcmSize := match statSync d (replace f ".wav" "_pcm.wav") with
                       | Some s => size s
                       | None => 0%Z
                       end;
            timestamp := mtime st |}.
Proof.
  intros Hst. unfold recording_of, existsSync. rewrite Hst. cbn.
  by destruct (statSync d (replace f ".wav" "_pcm.wav")).
Qed.

Lemma wav_files_In (d : Dir) f :
  In f (wav_files d) <-> In f (map fst d) /\ endsWith f ".wav" = true.
Proof. unfold wav_files. by rewrite filter_In. Qed.

Lemma recordings_elements (d : Dir) fs rs :
  Forall2 (fun f r => recording_of d f = Some r) fs rs ->
  Forall (fun f => In f (wav_files d) /\ is_Some (statSync d f)) fs ->
  map name rs = fs /\
  Forall (fun r =>
            endsWith (name r) ".wav" = true /\
            pcmName r = replace (name r) ".wav" "_pcm.wav" /\
            (exists st, statSync d (name r) = Some st /\
                        originalSize r = size st /\
                        timestamp r = mtime st) /\
            pcmSize r = match statSync d (pcmName r) with
                        | Some s => size s
                        | None => 0%Z
                        end) rs.
Proof.
  induction 1 as [| f r fs rs Hfr _ IH]; intros Hwav; [by split |].
  apply Forall_cons in Hwav as [[Hf [st Hst]] Hfs].
  destruct (IH Hfs) as [Hnames Hprops].
  rewrite (recording_of_Some d f st Hst) in Hfr. injection Hfr as <-.
  split; [cbn [map name]; by rewrite Hnames |].
  constructor; [| exact Hprops].
  cbn [name pcmName originalSize pcmSize timestamp].
  apply wav_files_In in Hf as [_ Hends].
  split; [exact Hends |]. split; [reflexivity |]. split; [| reflexivity].
  by exists st.
Qed.

(** What the listing of [server2.js] answers for a readable directory
    all of whose [.wav] names can be stat'ed. *)
Lemma recordings_spec (d : Dir) :
  Forall (fun f => is_Some (statSync d f)) (wav_files d) ->
  exists rs,
    recordings (Some d) = Some (Json rs) /\
    map name rs = wav_files d /\
    Forall (fun r =>
              endsWith (name r) ".wav" = true /\
              pcmName r = replace (name r) ".wav" "_pcm.wav" /\
              (exists st, statSync d (name r) = Some st /\
                          originalSize r = size st /\
                          timestamp r = mtime st) /\
              pcmSize r = match statSync d (pcmName r) with
                          | Some s => size s
                          | None => 0%Z
                          end) rs.
Proof.
  intros Hstat.
  destruct (mapM_is_Some_2 (recording_of d) (wav_files d)) as [rs Hrs].
  { eapply Forall_impl; [exact Hstat |]. intros f [st Hst]. cbn.
    rewrite (recording_of_Some d f st Hst). by eexists. }
  exists rs. cbn [recordings]. rewrite Hrs. split; [reflexivity |].
  apply mapM_Some_1 in Hrs. apply (recordings_elements d _ _ Hrs).
  rewrite Forall_forall in Hstat |- *.
  intros f Hf. split; [by apply list_elem_of_In | by apply Hstat].
Qed.

(** Without that, the callback of the listing throws: one [.wav] name
    that cannot be stat'ed is enough. *)
Lemma recordings_throws (d : Dir) :
  Exists (fun f => statSync d f = None) (wav_files d) ->
  recordings (Some d) = None.
Proof.
  intros Hex. cbn [recordings].
  rewrite (mapM_None_2 (recording_of d) (wav_files d)); [reflexivity |].
  eapply Exists_impl; [exact Hex |]. intros f Hf.
  unfold recording_of. by rewrite Hf.
Qed.

Lemma generated_name_split now :
  storage_filename now = ("recording_" ++ decimal now) ++ ".wav" /\
  has_char "." ("recording_" ++ decimal now) = false /\
  has_char "/" ("recording_" ++ decimal now ++ "_pcm.wav") = false.
Proof.
  unfold storage_filename. rewrite string_app_assoc.
  split; [reflexivity |].
  rewrite !has_char_app, decimal_no_dot, decimal_no_slash. by split.
Qed.

(** The names the upload route works with: for every time stamp the
    stored upload is [recording_<digits>.wav] inside [uploads/], the
    converted file is written to [uploads/recording_<digits>_pcm.wav],
    which is never the input path, the response names both files, and
    the converted file's name is the one the listing derives from the
    original's name; both names end in [.wav]. *)
Theorem upload_names (now : N) (content : Buffer) (highWaterMark : nat) :
  let f := diskStorage now in
  let pcm := "recording_" ++ decimal now ++ "_pcm.wav" in
  upload (Some f) content highWaterMark false =
    (Json {| message := "File uploaded and converted successfully";
             originalFile := "recording_" ++ decimal now ++ ".wav";
             pcmFile := pcm |},
     Some ("uploads/" ++ pcm, convert highWaterMark content)) /\
  "uploads/" ++ pcm <> path f /\
  replace (filename f) ".wav" "_pcm.wav" = pcm /\
  endsWith (filename f) ".wav" = true /\
  endsWith pcm ".wav" = true.
Proof.
  intros f pcm. subst f pcm.
  destruct (generated_name_split now) as (Hname & Hdot & Hslash).
  assert (Hout : replace (path (diskStorage now)) ".wav" "_pcm.wav" =
                 "uploads/" ++ "recording_" ++ decimal now ++ "_pcm.wav").
  { cbn [diskStorage path]. rewrite Hname, <- string_app_assoc.
    rewrite replace_wav; [by rewrite !string_app_assoc |].
    rewrite has_char_app, Hdot. reflexivity. }
  split; [| split; [| split; [| split]]].
  - unfold upload. rewrite Hout.
    change ("uploads/" ++ "recording_" ++ decimal now ++ "_pcm.wav")
      with ("uploads" ++ "/" ++ "recording_" ++ decimal now ++ "_pcm.wav") at 1.
    by rewrite (basename_in_directory "uploads" _ Hslash).
  - cbn [diskStorage path]. unfold storage_filename. intros Heq.
    apply (f_equal String.length) in Heq.
    rewrite !string_length_app in Heq. cbn [String.length] in Heq. lia.
  - cbn [diskStorage filename]. rewrite Hname, replace_wav by exact Hdot.
    by rewrite string_app_assoc.
  - cbn [diskStorage filename]. rewrite Hname. apply endsWith_app.
  - replace ("recording_" ++ decimal now ++ "_pcm.wav")
      with (("recording_" ++ decimal now ++ "_pcm") ++ ".wav")
      by (by rewrite !string_app_assoc).
    apply endsWith_app.
Qed.

(** The listing of [server2.js] on a readable directory all of whose
    [.wav] names can be stat'ed answers one element per [.wav] name, in
    directory order: each pairs the name with the name obtained by
    replacing its first [.wav] by [_pcm.wav], reports the size and
    modification time found under the name itself, and as converted size
    the size found under the derived name, or 0 when that name is not in
    the directory or cannot be stat'ed. *)
Theorem recordings_listing (d : Dir) :
  Forall (fun f => is_Some (statSync d f)) (wav_files d) ->
  exists rs,
    recordings (Some d) = Some (Json rs) /\
    map name rs = wav_files d /\
    Forall (fun r =>
              endsWith (name r) ".wav" = true /\
              pcmName r = replace (name r) ".wav" "_pcm.wav" /\
              (exists st, statSync d (name r) = Some st /\
                          originalSize r = size st /\
                          timestamp r = mtime st) /\
              pcmSize r = match statSync d (pcmName r) with
                          | Some s => size s
                          | None => 0%Z
                          end) rs.
Proof. exact (recordings_spec d). Qed.

Lemma recordings_listing_witness :
  let d := [("a.wav", Some (mkStats 60 1 1)); ("notes.txt", None);
            ("b.wav", Some (mkStats 10 7 7));
            ("a_pcm.wav", Some (mkStats 108 2 2))] in
  exists rs,
    recordings (Some d) = Some (Json rs) /\
    map name rs = wav_files d /\
    Forall (fun r =>
              endsWith (name r) ".wav" = true /\
              pcmName r = replace (name r) ".wav" "_pcm.wav" /\
              (exists st, statSync d (name r) = Some st /\
                          originalSize r = size st /\
                          timestamp r = mtime st) /\
              pcmSize r = match statSync d (pcmName r) with
                          | Some s => size s
                          | None => 0%Z
                          end) rs.
Proof.
  apply (recordings_listing
           [("a.wav", Some (mkStats 60 1 1)); ("notes.txt", None);
            ("b.wav", Some (mkStats 10 7 7));
            ("a_pcm.wav", Some (mkStats 108 2 2))]).
  match goal with
  | |- Forall _ ?l => let v := eval vm_compute in l in change l with v
  end.
  repeat constructor; by eexists.
Defined.

(** Converted files are listed as recordings of their own: on a
    directory all of whose [.wav] names can be stat'ed, whenever the
    directory holds a converted file [<stem>_pcm.wav] (no dot in the
    stem), the listing has an element for it, paired with the name
    [<stem>_pcm_pcm.wav]. *)
Theorem converted_files_listed (d : Dir) (stem : string) :
  Forall (fun f => is_Some (statSync d f)) (wav_files d) ->
  has_char "." stem = false ->
  In (stem ++ "_pcm.wav") (map fst d) ->
  exists rs r,
    recordings (Some d) = Some (Json rs) /\
    In r rs /\
    name r = stem ++ "_pcm.wav" /\
    pcmName r = stem ++ "_pcm_pcm.wav".
Proof.
  intros Hstat Hdot Hin.
  destruct (recordings_spec d Hstat) as (rs & Hrec & Hnames & Hprops).
  assert (Hsplit : stem ++ "_pcm.wav" = (stem ++ "_pcm") ++ ".wav")
    by (by rewrite string_app_assoc).
  assert (Hwav : In (stem ++ "_pcm.wav") (map name rs)).
  { rewrite Hnames. apply wav_files_In. split; [exact Hin |].
    rewrite Hsplit. apply endsWith_app. }
  apply in_map_iff in Hwav as (r & Hname & Hr).
  exists rs, r. split; [exact Hrec |]. split; [exact Hr |].
  split; [exact Hname |].
  rewrite Forall_forall in Hprops.
  destruct (Hprops r (proj2 (list_elem_of_In rs r) Hr)) as (_ & Hpcm & _).
  rewrite Hpcm, Hname, Hsplit, replace_wav.
  - by rewrite string_app_assoc.
  - rewrite has_char_app, Hdot. reflexivity.
Qed.

Lemma converted_files_listed_witness :
  exists rs r,
    recordings (Some [("a.wav", Some (mkStats 60 1 1));
                      ("a_pcm.wav", Some (mkStats 108 2 2));
                      ("gone", None)]) = Some (Json rs) /\
    In r rs /\
    name r = "a" ++ "_pcm.wav" /\
    pcmName r = "a" ++ "_pcm_pcm.wav".
Proof.
  apply (converted_files_listed
           [("a.wav", Some (mkStats 60 1 1));
            ("a_pcm.wav", Some (mkStats 108 2 2)); ("gone", None)] "a").
  - match goal with
    | |- Forall _ ?l => let v := eval vm_compute in l in change l with v
    end.
    repeat constructor; by eexists.
  - reflexivity.
  - cbn. tauto.
Defined.

(** After an upload of at least 44 bytes, converted with any chunk size
    of at least 44: in any directory all of whose [.wav] names can be
    stat'ed and where the stored upload and the converted file are found
    under the names the upload route gave them, with the sizes of what was
    written, the listing of [server2.js] has an element that pairs the two
    names and reports the upload's size [n] and the converted size
    [4 * n - 132]. *)
Theorem upload_then_listing (now : N) (content : Buffer)
    (highWaterMark : nat) (d : Dir) (st st' : Stats) :
  Forall (fun f => is_Some (statSync d f)) (wav_files d) ->
  (44 <= highWaterMark)%nat ->
  (44 <= length content)%nat ->
  statSync d (storage_filename now) = Some st ->
  size st = Z.of_nat (length content) ->
  statSync d ("recording_" ++ decimal now ++ "_pcm.wav") = Some st' ->
  size st' = Z.of_nat (length (convert highWaterMark content)) ->
  exists rs r,
    recordings (Some d) = Some (Json rs) /\
    In r rs /\
    name r = storage_filename now /\
    pcmName r = "recording_" ++ decimal now ++ "_pcm.wav" /\
    originalSize r = Z.of_nat (length content) /\
    pcmSize r = (4 * Z.of_nat (length content) - 132)%Z.
Proof.
  intros Hstat Hh Hlen Hst Hsize Hst' Hsize'.
  destruct (recordings_spec d Hstat) as (rs & Hrec & Hnames & Hprops).
  destruct (generated_name_split now) as (Hname & Hdot & _).
  assert (Hwav : In (storage_filename now) (map name rs)).
  { rewrite Hnames. apply wav_files_In.
    split; [exact (statSync_Some_In d _ st Hst) |].
    rewrite Hname. apply endsWith_app. }
  apply in_map_iff in Hwav as (r & Hr & Hin).
  exists rs, r. split; [exact Hrec |]. split; [exact Hin |].
  split; [exact Hr |].
  rewrite Forall_forall in Hprops.
  destruct (Hprops r (proj2 (list_elem_of_In rs r) Hin))
    as (_ & Hpcm & (st0 & Hst0 & Horig & _) & Hpsize).
  assert (Hpcm' : pcmName r = "recording_" ++ decimal now ++ "_pcm.wav").
  { rewrite Hpcm, Hr, Hname, replace_wav by exact Hdot.
    by rewrite string_app_assoc. }
  split; [exact Hpcm' |].
  rewrite Hr, Hst in Hst0. injection Hst0 as <-.
  split; [by rewrite Horig |].
  rewrite Hpsize, Hpcm', Hst', Hsize'.
  destruct (convert_cases highWaterMark content Hh) as (_ & _ & Hlong).
  destruct (Hlong Hlen) as [_ Hl]. rewrite Hl. lia.
Qed.

Lemma upload_then_listing_witness :
  exists rs r,
    recordings
      (Some [("recording_17.wav", Some (mkStats 46 5 5));
             ("recording_17_pcm.wav", Some (mkStats 52 6 6))])
    = Some (Json rs) /\
    In r rs /\
    name r = storage_filename 17 /\
    pcmName r = "recording_" ++ decimal 17 ++ "_pcm.wav" /\
    originalSize r = Z.of_nat (length (replicate 46 x3c)) /\
    pcmSize r = (4 * Z.of_nat (length (replicate 46 x3c)) - 132)%Z.
Proof.
  apply (upload_then_listing 17 (replicate 46 x3c) 64
           [("recording_17.wav", Some (mkStats 46 5 5));
            ("recording_17_pcm.wav", Some (mkStats 52 6 6))]
           (mkStats 46 5 5) (mkStats 52 6 6)).
  - match goal with
    | |- Forall _ ?l => let v := eval vm_compute in l in change l with v
    end.
    repeat constructor; by eexists.
  - lia.
  - vm_compute. lia.
  - reflexivity.
  - reflexivity.
  - reflexivity.
  - vm_compute. reflexivity.
Defined.

Lemma latest_of_Some (d : Dir) f st :
  statSync d f = Some st ->
  latest_of d f =
    Some {| file := f; bytes := size st; created := birthtime st |}.
Proof. intros Hst. unfold latest_of. by rewrite Hst. Qed.

Lemma insert_latest_perm x l : insert_latest x l ≡ₚ x :: l.
Proof.
  induction l as [| y l IH]; [reflexivity |]. cbn [insert_latest].
  destruct (created x <? created y)%Z; [| reflexivity].
  rewrite IH. apply Permutation_swap.
Qed.

Lemma sort_latest_perm l : sort_latest l ≡ₚ l.
Proof.
  induction l as [| x l IH]; [reflexivity |].
  cbn [sort_latest foldr]. fold (sort_latest l).
  by rewrite insert_latest_perm, IH.
Qed.

Lemma insert_latest_sorted x l :
  StronglySorted (fun a b => (created b <= created a)%Z) l ->
  StronglySorted (fun a b => (created b <= created a)%Z) (insert_latest x l).
Proof.
  induction 1 as [| y l Hs IH Hy]; [repeat constructor |].
  cbn [insert_latest]. destruct (Z.ltb_spec (created x) (created y)).
  - constructor; [exact IH |].
    rewrite insert_latest_perm. constructor; [lia | exact Hy].
  - constructor; [by constructor |].
    constructor; [lia |]. eapply Forall_impl; [exact Hy |].
    intros z Hz. cbn in Hz |- *. lia.
Qed.

Lemma sort_latest_sorted l :
  StronglySorted (fun a b => (created b <= created a)%Z) (sort_latest l).
Proof.
  induction l as [| x l IH]; [constructor |].
  cbn [sort_latest foldr]. by apply insert_latest_sorted.
Qed.

(** The ten latest recordings of [server.js]: on a readable directory
    all of whose [.wav] names can be stat'ed, the route answers at most
    ten elements, as many as there are [.wav] names when these are fewer,
    each describing one [.wav] file, ordered from the latest creation time
    to the earliest; and every [.wav] file left out was created no later
    than every file answered. *)
Theorem latest_listing (d : Dir) :
  Forall (fun f => is_Some (statSync d f)) (wav_files d) ->
  exists recs rs older,
    mapM (latest_of d) (wav_files d) = Some recs /\
    map file recs = wav_files d /\
    latest (Some d) = Some (Json rs) /\
    length rs = Nat.min 10 (length (wav_files d)) /\
    StronglySorted (fun a b => (created b <= created a)%Z) rs /\
    rs ++ older ≡ₚ recs /\
    Forall (fun o => Forall (fun r => (created o <= created r)%Z) rs) older.
Proof.
  intros Hstat.
  destruct (mapM_is_Some_2 (latest_of d) (wav_files d)) as [recs Hrecs].
  { eapply Forall_impl; [exact Hstat |]. intros f [st Hst]. cbn.
    rewrite (latest_of_Some d f st Hst). by eexists. }
  exists recs, (take 10 (sort_latest recs)), (drop 10 (sort_latest recs)).
  split; [exact Hrecs |].
  assert (Hfiles : map file recs = wav_files d).
  { clear Hstat. apply mapM_Some_1 in Hrecs.
    induction Hrecs as [| f r fs rs Hfr _ IH]; [reflexivity |].
    cbn [map]. rewrite IH. f_equal. unfold latest_of in Hfr.
    destruct (statSync d f); [| discriminate Hfr].
    cbn in Hfr. by injection Hfr as <-. }
  split; [exact Hfiles |].
  split; [cbn [latest]; by rewrite Hrecs |].
  pose proof (sort_latest_sorted recs) as Hsorted.
  rewrite <- (take_drop 10 (sort_latest recs)) in Hsorted.
  split.
  { rewrite length_take, (Permutation_length (sort_latest_perm recs)).
    by rewrite <- Hfiles, length_map. }
  split; [by apply StronglySorted_app_1_l in Hsorted |].
  split; [by rewrite take_drop, sort_latest_perm |].
  apply Forall_forall. intros o Ho. apply Forall_forall. intros r Hr.
  exact (StronglySorted_app_1_elem_of _ _ _ r o Hsorted Hr Ho).
Qed.

Lemma latest_listing_witness :
  let d := [("a.wav", Some (mkStats 10 1 2)); ("b.wav", Some (mkStats 10 1 7));
            ("gone", None); ("a_pcm.wav", Some (mkStats 44 5 7));
            ("c.wav", Some (mkStats 1 1 9))] in
  exists recs rs older,
    mapM (latest_of d) (wav_files d) = Some recs /\
    map file recs = wav_files d /\
    latest (Some d) = Some (Json rs) /\
    length rs = Nat.min 10 (length (wav_files d)) /\
    StronglySorted (fun a b => (created b <= created a)%Z) rs /\
    rs ++ older ≡ₚ recs /\
    Forall (fun o => Forall (fun r => (created o <= created r)%Z) rs) older.
Proof.
  apply (latest_listing
           [("a.wav", Some (mkStats 10 1 2)); ("b.wav", Some (mkStats 10 1 7));
            ("gone", None); ("a_pcm.wav", Some (mkStats 44 5 7));
            ("c.wav", Some (mkStats 1 1 9))]).
  match goal with
  | |- Forall _ ?l => let v := eval vm_compute in l in change l with v
  end.
  repeat constructor; by eexists.
Defined.

(** Without that, the callback of [/latest] throws as well. *)
Lemma latest_throws (d : Dir) :
  Exists (fun f => statSync d f = None) (wav_files d) ->
  latest (Some d) = None.
Proof.
  intros Hex. cbn [latest].
  rewrite (mapM_None_2 (latest_of d) (wav_files d)); [reflexivity |].
  eapply Exists_impl; [exact Hex |]. intros f Hf.
  unfold latest_of. by rewrite Hf.
Qed.

(** The sort of the latest recordings is stable: for every creation
    time, the files created at that time come out of the sort in the
    order they went in (the directory order), and the sorted list is a
    rearrangement of the input ordered from latest to earliest; together
    these fix the result of [sort] for this comparator. *)
Theorem sort_latest_stable (l : list Latest) (k : Z) :
  List.filter (fun r => (created r =? k)%Z) (sort_latest l) =
    List.filter (fun r => (created r =? k)%Z) l /\
  sort_latest l ≡ₚ l /\
  StronglySorted (fun a b => (created b <= created a)%Z) (sort_latest l).
Proof.
  split; [| split; [apply sort_latest_perm | apply sort_latest_sorted]].
  assert (Hins : forall x m,
            List.filter (fun r => (created r =? k)%Z) (insert_latest x m) =
            List.filter (fun r => (created r =? k)%Z) (x :: m)).
  { intros x m. induction m as [| y m IH]; [reflexivity |].
    cbn [insert_latest]. destruct (Z.ltb_spec (created x) (created y));
      [| reflexivity].
    cbn [List.filter] in IH |- *. rewrite IH.
    destruct (Z.eqb_spec (created x) k), (Z.eqb_spec (created y) k);
      try reflexivity. lia. }
  induction l as [| x l IH]; [reflexivity |].
  cbn [sort_latest foldr]. fold (sort_latest l).
  rewrite Hins. cbn [List.filter]. by rewrite IH.
Qed.

End RoutesFacts.
